(** * Python Data Types Mini-Trainer: safe evaluation and the checkers

    A shallow embedding of [src/main.py]: the AST validator [_validate_ast],
    the evaluator [safe_eval], the checker factories [check_exact],
    [check_mc], [check_eval_equals], [check_eval_predicate], [check_textio],
    the checkers of the items [bool_truth], [list_copy], [list_remove_evens]
    and [bytearray_modify], and the handler of [run_tasks] around a checker
    call; then the session itself, [select_mode], [run_tasks] and the main
    program, over a console of typed lines and written lines.

    The Python runtime the program calls ([ast.parse], [compile]/[eval],
    [exec], [==], [repr], [str.upper]) is not part of the repository: it is
    the interface [runtime], over which the program is a family of functions.
    Module [CPython] gives one instance of the interface for a small
    fragment of the language; it is used for closed examples only. *)

From Stdlib Require Import ZArith NArith List String Ascii Bool Lia
  DecimalString.
Import ListNotations.

Set Warnings "-register-all".

(** ** Python [str]: a sequence of code points *)

Definition str := list N.

(** UTF-8 bytes of a literal to code points, so that program texts and
    messages can be written as literals. *)
Fixpoint utf8_decode (bs : list N) : str :=
  match bs with
  | [] => []
  | b0 :: t0 =>
    if (b0 <? 128)%N then b0 :: utf8_decode t0
    else match t0 with
    | [] => [b0]
    | b1 :: t1 =>
      if (b0 <? 224)%N
      then ((b0 - 192) * 64 + (b1 - 128))%N :: utf8_decode t1
      else match t1 with
      | [] => [b0; b1]
      | b2 :: t2 =>
        if (b0 <? 240)%N
        then ((b0 - 224) * 4096 + (b1 - 128) * 64 + (b2 - 128))%N
               :: utf8_decode t2
        else match t2 with
        | [] => [b0; b1; b2]
        | b3 :: t3 =>
          ((b0 - 240) * 262144 + (b1 - 128) * 4096
           + (b2 - 128) * 64 + (b3 - 128))%N :: utf8_decode t3
        end
      end
    end
  end.

Definition u (s : string) : str :=
  utf8_decode (map (fun c => N_of_ascii c) (list_ascii_of_string s)).

Definition str_eqb (a b : str) : bool :=
  if list_eq_dec N.eq_dec a b then true else false.

Fixpoint mem_str (x : str) (l : list str) : bool :=
  match l with
  | [] => false
  | y :: l' => str_eqb x y || mem_str x l'
  end.

(** [str.isspace] on one code point: the set CPython's
    [_PyUnicode_IsWhitespace] accepts. *)
Definition isspace (c : N) : bool :=
  ((9 <=? c) && (c <=? 13) || (28 <=? c) && (c <=? 32)
   || (c =? 133) || (c =? 160) || (c =? 5760)
   || (8192 <=? c) && (c <=? 8202)
   || (c =? 8232) || (c =? 8233) || (c =? 8239) || (c =? 8287)
   || (c =? 12288))%N.

Fixpoint lstrip (s : str) : str :=
  match s with
  | [] => []
  | c :: s' => if isspace c then lstrip s' else s
  end.

Fixpoint rstrip (s : str) : str :=
  match s with
  | [] => []
  | c :: s' =>
    match rstrip s' with
    | [] => if isspace c then [] else [c]
    | r => c :: r
    end
  end.

(** [s.strip()] *)
Definition strip (s : str) : str := rstrip (lstrip s).

(** [s.split(sep)] for a one-character separator: never an empty list. *)
Fixpoint split (sep : N) (s : str) : list str :=
  match s with
  | [] => [[]]
  | c :: s' =>
    if (c =? sep)%N then [] :: split sep s'
    else match split sep s' with
         | seg :: rest => (c :: seg) :: rest
         | [] => [[c]]
         end
  end.

(** [sep.join(parts)] *)
Fixpoint join (sep : str) (parts : list str) : str :=
  match parts with
  | [] => []
  | [p] => p
  | p :: ps => p ++ sep ++ join sep ps
  end.

Definition semicolon : N := 59%N.

(** A non-empty [str] is truthy. *)
Definition truthy (s : str) : bool :=
  match s with [] => false | _ => true end.

Fixpoint list_str_eqb (a b : list str) : bool :=
  match a, b with
  | [], [] => true
  | x :: a', y :: b' => str_eqb x y && list_str_eqb a' b'
  | _, _ => false
  end.


(** ** Exceptions and results *)

(** A raised exception: its class name and [str(e)].  [Exc] is an instance
    of a subclass of [Exception], which [except Exception] catches;
    [BaseExc] is one of the others ([SystemExit], [KeyboardInterrupt],
    [GeneratorExit]), which it does not catch. *)
Inductive exc : Type :=
| Exc (cls : str) (msg : str)
| BaseExc (cls : str) (msg : str).

Definition ValueError (msg : str) : exc := Exc (u "ValueError") msg.

Inductive result (A : Type) : Type :=
| Ok (a : A)
| Raise (e : exc).
Arguments Ok {A} a.
Arguments Raise {A} e.

(** ** Values and the heap *)

Definition loc := nat.

(** Immutable values are carried by value; a list, bytearray, dict or set
    is an object in the heap and a value refers to it by [VRef], so that
    two names can share one object. *)
Inductive value : Type :=
| VNone
| VBool (b : bool)
| VInt (z : Z)
| VStr (s : str)
| VBytes (bs : list N)
| VTuple (items : list value)
| VRef (l : loc)
| VBuiltin (name : str).

Inductive object : Type :=
| OList (items : list value)
| OByteArray (bytes : list N)
| ODict (entries : list (value * value))
| OSet (members : list value).

Definition heap := list object.

(** A Python [dict] with [str] keys, in insertion order. *)
Definition dict := list (str * value).

Fixpoint dict_get (k : str) (d : dict) : option value :=
  match d with
  | [] => None
  | (k', v) :: d' => if str_eqb k k' then Some v else dict_get k d'
  end.

Fixpoint dict_set (k : str) (v : value) (d : dict) : dict :=
  match d with
  | [] => [(k, v)]
  | (k', v') :: d' =>
    if str_eqb k k' then (k', v) :: d' else (k', v') :: dict_set k v d'
  end.

(** [d.update(e)] *)
Definition dict_update (d e : dict) : dict :=
  fold_left (fun acc kv => dict_set (fst kv) (snd kv) acc) e d.

(** [v] is a list object of the heap. *)
Definition is_list (h : heap) (v : value) : bool :=
  match v with
  | VRef l => match nth_error h l with
              | Some (OList _) => true
              | _ => false
              end
  | _ => false
  end.

(** Computations over the heap that may raise; the heap survives a raise. *)
Definition M (A : Type) : Type := heap -> result A * heap.

Definition ret {A} (a : A) : M A := fun h => (Ok a, h).

Definition throw {A} (e : exc) : M A := fun h => (Raise e, h).

Definition bind {A B} (m : M A) (k : A -> M B) : M B :=
  fun h => match m h with
           | (Ok a, h') => k a h'
           | (Raise e, h') => (Raise e, h')
           end.

Notation "x <- m ;; k" := (bind m (fun x => k))
  (at level 61, m at next level, right associativity).

(** A new object; its location is not in use before. *)
Definition alloc (o : object) : M value :=
  fun h => (Ok (VRef (List.length h)), h ++ [o]).

Definition verdict := (bool * str)%type.

(** [Checker = Callable[[str], Tuple[bool, str]]] *)
Definition Checker := str -> M verdict.

(** ** Syntax trees *)

(** The classes of the [ast] module, with the fields that are not nodes.
    [Call] and [Name], whose fields the validator reads, are constructors
    of [node] below. *)
Inductive ast_class : Type :=
(* mod *)
| ast_Module | ast_Interactive | ast_Expression | ast_FunctionType
(* stmt *)
| ast_FunctionDef (name : str) | ast_AsyncFunctionDef (name : str)
| ast_ClassDef (name : str) | ast_Return | ast_Delete | ast_Assign
| ast_AugAssign | ast_AnnAssign | ast_For | ast_AsyncFor | ast_While
| ast_If | ast_With | ast_AsyncWith | ast_Match | ast_Raise | ast_Try
| ast_TryStar | ast_Assert | ast_Import | ast_ImportFrom
| ast_Global (names : list str) | ast_Nonlocal (names : list str)
| ast_Expr | ast_Pass | ast_Break | ast_Continue
(* expr *)
| ast_BoolOp | ast_NamedExpr | ast_BinOp | ast_UnaryOp | ast_Lambda
| ast_IfExp | ast_Dict | ast_Set | ast_ListComp | ast_SetComp
| ast_DictComp | ast_GeneratorExp | ast_Await | ast_Yield | ast_YieldFrom
| ast_Compare | ast_FormattedValue | ast_JoinedStr
| ast_Constant (v : value) | ast_Attribute (attr : str) | ast_Subscript
| ast_Starred | ast_List | ast_Tuple | ast_Slice
| ast_Index | ast_ExtSlice
(* expr_context *)
| ast_Load | ast_Store | ast_Del
(* boolop, operator, unaryop, cmpop *)
| ast_And | ast_Or
| ast_Add | ast_Sub | ast_Mult | ast_MatMult | ast_Div | ast_Mod | ast_Pow
| ast_LShift | ast_RShift | ast_BitOr | ast_BitXor | ast_BitAnd
| ast_FloorDiv
| ast_Invert | ast_Not | ast_UAdd | ast_USub
| ast_Eq | ast_NotEq | ast_Lt | ast_LtE | ast_Gt | ast_GtE | ast_Is
| ast_IsNot | ast_In | ast_NotIn
(* the rest *)
| ast_comprehension | ast_ExceptHandler | ast_arguments
| ast_arg (name : str) | ast_keyword (name : option str)
| ast_alias (name : str) | ast_withitem | ast_match_case
| ast_other (class_name : str).

Inductive node : Type :=
| Call (func : node) (args : list node) (keywords : list node)
| Name (id : str) (ctx : node)
| Node (cls : ast_class) (children : list node).

(** [ast.iter_child_nodes] *)
Definition iter_child_nodes (n : node) : list node :=
  match n with
  | Call func args keywords => func :: args ++ keywords
  | Name _ ctx => [ctx]
  | Node _ children => children
  end.

(** [type(node).__name__] *)
Definition class_name (c : ast_class) : str :=
  match c with
  | ast_Module => u "Module" | ast_Interactive => u "Interactive"
  | ast_Expression => u "Expression" | ast_FunctionType => u "FunctionType"
  | ast_FunctionDef _ => u "FunctionDef"
  | ast_AsyncFunctionDef _ => u "AsyncFunctionDef"
  | ast_ClassDef _ => u "ClassDef" | ast_Return => u "Return"
  | ast_Delete => u "Delete" | ast_Assign => u "Assign"
  | ast_AugAssign => u "AugAssign" | ast_AnnAssign => u "AnnAssign"
  | ast_For => u "For" | ast_AsyncFor => u "AsyncFor"
  | ast_While => u "While" | ast_If => u "If" | ast_With => u "With"
  | ast_AsyncWith => u "AsyncWith" | ast_Match => u "Match"
  | ast_Raise => u "Raise" | ast_Try => u "Try" | ast_TryStar => u "TryStar"
  | ast_Assert => u "Assert" | ast_Import => u "Import"
  | ast_ImportFrom => u "ImportFrom" | ast_Global _ => u "Global"
  | ast_Nonlocal _ => u "Nonlocal" | ast_Expr => u "Expr"
  | ast_Pass => u "Pass" | ast_Break => u "Break"
  | ast_Continue => u "Continue"
  | ast_BoolOp => u "BoolOp" | ast_NamedExpr => u "NamedExpr"
  | ast_BinOp => u "BinOp" | ast_UnaryOp => u "UnaryOp"
  | ast_Lambda => u "Lambda" | ast_IfExp => u "IfExp" | ast_Dict => u "Dict"
  | ast_Set => u "Set" | ast_ListComp => u "ListComp"
  | ast_SetComp => u "SetComp" | ast_DictComp => u "DictComp"
  | ast_GeneratorExp => u "GeneratorExp" | ast_Await => u "Await"
  | ast_Yield => u "Yield" | ast_YieldFrom => u "YieldFrom"
  | ast_Compare => u "Compare" | ast_FormattedValue => u "FormattedValue"
  | ast_JoinedStr => u "JoinedStr" | ast_Constant _ => u "Constant"
  | ast_Attribute _ => u "Attribute" | ast_Subscript => u "Subscript"
  | ast_Starred => u "Starred" | ast_List => u "List"
  | ast_Tuple => u "Tuple" | ast_Slice => u "Slice"
  | ast_Index => u "Index" | ast_ExtSlice => u "ExtSlice"
  | ast_Load => u "Load" | ast_Store => u "Store" | ast_Del => u "Del"
  | ast_And => u "And" | ast_Or => u "Or"
  | ast_Add => u "Add" | ast_Sub => u "Sub" | ast_Mult => u "Mult"
  | ast_MatMult => u "MatMult" | ast_Div => u "Div" | ast_Mod => u "Mod"
  | ast_Pow => u "Pow" | ast_LShift => u "LShift" | ast_RShift => u "RShift"
  | ast_BitOr => u "BitOr" | ast_BitXor => u "BitXor"
  | ast_BitAnd => u "BitAnd" | ast_FloorDiv => u "FloorDiv"
  | ast_Invert => u "Invert" | ast_Not => u "Not" | ast_UAdd => u "UAdd"
  | ast_USub => u "USub"
  | ast_Eq => u "Eq" | ast_NotEq => u "NotEq" | ast_Lt => u "Lt"
  | ast_LtE => u "LtE" | ast_Gt => u "Gt" | ast_GtE => u "GtE"
  | ast_Is => u "Is" | ast_IsNot => u "IsNot" | ast_In => u "In"
  | ast_NotIn => u "NotIn"
  | ast_comprehension => u "comprehension"
  | ast_ExceptHandler => u "ExceptHandler" | ast_arguments => u "arguments"
  | ast_arg _ => u "arg" | ast_keyword _ => u "keyword"
  | ast_alias _ => u "alias" | ast_withitem => u "withitem"
  | ast_match_case => u "match_case"
  | ast_other name => name
  end.

Definition node_class_name (n : node) : str :=
  match n with
  | Call _ _ _ => u "Call"
  | Name _ _ => u "Name"
  | Node c _ => class_name c
  end.

Fixpoint size (n : node) : nat :=
  match n with
  | Call func args keywords =>
    S (size func + list_sum (map size args) + list_sum (map size keywords))
  | Name _ ctx => S (size ctx)
  | Node _ children => S (list_sum (map size children))
  end.

(** [ast.walk]: the queue loop, breadth first.
<<
    todo = deque([node])
    while todo:
        node = todo.popleft()
        todo.extend(iter_child_nodes(node))
        yield node
>>
    One unit of fuel is spent per node taken from the queue. *)
Fixpoint walk_loop (fuel : nat) (todo : list node) : list node :=
  match fuel with
  | O => []
  | S fuel' =>
    match todo with
    | [] => []
    | n :: rest => n :: walk_loop fuel' (rest ++ iter_child_nodes n)
    end
  end.

Definition walk (tree : node) : list node := walk_loop (size tree) [tree].

(** [d] is [t] or a node below it. *)
Inductive descendant (d : node) : node -> Prop :=
| desc_self : descendant d d
| desc_child (t c : node) :
    In c (iter_child_nodes t) -> descendant d c -> descendant d t.

(** ** The Python runtime, as the program uses it *)

Record runtime : Type := {
  (** [ast.parse(s, mode='eval').body], or the class and text of the
      exception the parser raises (always a subclass of [Exception]:
      [SyntaxError], [ValueError], [RecursionError], [MemoryError]) *)
  parse_eval : str -> node + (str * str);
  (** [ast.parse(s, mode='exec').body] *)
  parse_exec : str -> list node + (str * str);
  (** [eval(compile(tree, '<expr>', 'eval'), globals, locals)] *)
  eval_code : node -> dict -> dict -> M value;
  (** running a compiled module against [globals] and [locals] *)
  exec_code : node -> dict -> dict -> M unit;
  (** [a == b] *)
  py_eq : heap -> value -> value -> bool;
  (** [repr(a)] *)
  py_repr : heap -> value -> str;
  (** [s.upper()] *)
  str_upper : str -> str
}.

Section Trainer.

Variable R : runtime.

(** [ast.parse(expr, mode='eval')]: the root is an [Expression] node. *)
Definition ast_parse_eval (s : str) : result node :=
  match parse_eval R s with
  | inl body => Ok (Node ast_Expression [body])
  | inr (cls, msg) => Raise (Exc cls msg)
  end.

(** [ast.parse(s, mode='exec')]: the root is a [Module] node. *)
Definition ast_parse_exec (s : str) : result node :=
  match parse_exec R s with
  | inl body => Ok (Node ast_Module body)
  | inr (cls, msg) => Raise (Exc cls msg)
  end.

(** [exec(source, globals, locals)] on a source text: compile, then run.
    The value of the call is [None]. *)
Definition exec (source : str) (globals locals : dict) : M unit :=
  match ast_parse_exec source with
  | Ok tree => exec_code R tree globals locals
  | Raise e => throw e
  end.

(** [a == b] as a step of a computation *)
Definition value_eq (a b : value) : M bool :=
  fun h => (Ok (py_eq R h a b), h).

(** [isinstance(v, list)] *)
Definition isinstance_list (v : value) : M bool :=
  fun h => (Ok (is_list h v), h).

(** ** Safe evaluation of expressions (lines 27-102) *)

Definition ALLOWED_BUILTINS : dict :=
  [ (u "None", VNone); (u "True", VBool true); (u "False", VBool false);
    (u "len", VBuiltin (u "len")); (u "sum", VBuiltin (u "sum"));
    (u "min", VBuiltin (u "min")); (u "max", VBuiltin (u "max"));
    (u "sorted", VBuiltin (u "sorted")); (u "range", VBuiltin (u "range"));
    (u "set", VBuiltin (u "set")); (u "dict", VBuiltin (u "dict"));
    (u "list", VBuiltin (u "list")); (u "tuple", VBuiltin (u "tuple"));
    (u "bytes", VBuiltin (u "bytes"));
    (u "bytearray", VBuiltin (u "bytearray")) ].

(** [isinstance(node, ALLOWED_NODES)] *)
Definition ALLOWED_NODES (n : node) : bool :=
  match n with
  | Call _ _ _ => true
  | Name _ _ => true
  | Node c _ =>
    match c with
    | ast_Module | ast_Expr
    | ast_Load | ast_Store | ast_Del
    | ast_Constant _
    | ast_Tuple | ast_List | ast_Set | ast_Dict
    | ast_UnaryOp | ast_UAdd | ast_USub | ast_Not | ast_Invert
    | ast_BinOp | ast_Add | ast_Sub | ast_Mult | ast_Div | ast_FloorDiv
    | ast_Mod | ast_Pow
    | ast_MatMult | ast_BitAnd | ast_BitOr | ast_BitXor | ast_LShift
    | ast_RShift
    | ast_BoolOp | ast_And | ast_Or
    | ast_Compare | ast_Eq | ast_NotEq | ast_Lt | ast_LtE | ast_Gt | ast_GtE
    | ast_Is | ast_IsNot | ast_In | ast_NotIn
    | ast_keyword _
    | ast_Slice | ast_ExtSlice | ast_Index
    | ast_Subscript
    | ast_JoinedStr | ast_FormattedValue => true
    | _ => false
    end
  end.

Definition ALLOWED_NAMES : list str :=
  map fst ALLOWED_BUILTINS ++
  [ u "x"; u "s"; u "a"; u "b"; u "t"; u "d"; u "nums"; u "s1"; u "s2";
    u "r"; u "ba"; u "fs" ].

Definition ALLOWED_CALLS : list str :=
  [ u "len"; u "sum"; u "min"; u "max"; u "sorted"; u "range"; u "set";
    u "dict"; u "list"; u "tuple"; u "bytes"; u "bytearray" ].

(** The body of the loop of [_validate_ast] (lines 74-84). *)
Definition validate_node (n : node) : result unit :=
  if negb (ALLOWED_NODES n) then
    Raise (ValueError
             (u "Недопустимый синтаксический элемент: " ++ node_class_name n))
  else
    match n with
    | Call func _ _ =>
      match func with
      | Name id _ =>
        if negb (mem_str id ALLOWED_CALLS) then
          Raise (ValueError (u "Недопустимый вызов: " ++ id ++ u "()"))
        else Ok tt
      | _ =>
        Raise (ValueError
                 (u "Разрешены только простые вызовы встроенных функций"))
      end
    | Name id _ =>
      if negb (mem_str id ALLOWED_NAMES) then
        Raise (ValueError (u "Недопустимое имя: " ++ id))
      else Ok tt
    | Node _ _ => Ok tt
    end.

(** [for node in nodes: body(node)], left at the first raise. *)
Fixpoint for_each (body : node -> result unit) (nodes : list node)
  : result unit :=
  match nodes with
  | [] => Ok tt
  | n :: nodes' =>
    match body n with
    | Ok _ => for_each body nodes'
    | Raise e => Raise e
    end
  end.

Definition _validate_ast (tree : node) : result unit :=
  for_each validate_node (walk tree).

(** The loop over [env.items()] (lines 98-100). *)
Fixpoint check_env_names (items : dict) : result unit :=
  match items with
  | [] => Ok tt
  | (k, _) :: items' =>
    if negb (mem_str k ALLOWED_NAMES) then
      Raise (ValueError (u "Недопустимое имя переменной окружения: " ++ k))
    else check_env_names items'
  end.

(** Lines 94-101: the globals the expression is evaluated in. *)
Definition safe_eval_globals (env : option dict) : result dict :=
  let globals_env := ALLOWED_BUILTINS in
  match env with
  | Some ((_ :: _) as e) =>
    match check_env_names e with
    | Ok _ => Ok (dict_update globals_env e)
    | Raise x => Raise x
    end
  | _ => Ok globals_env
  end.

Definition safe_eval (expr : str) (env : option dict) : M value :=
  let expr := strip expr in
  if negb (truthy expr) then throw (ValueError (u "Пустое выражение"))
  else
    match ast_parse_eval expr with
    | Raise e => throw e
    | Ok tree =>
      match _validate_ast tree with
      | Raise e => throw e
      | Ok _ =>
        match safe_eval_globals env with
        | Raise e => throw e
        | Ok globals_env =>
          let locals_env := [] in
          eval_code R tree globals_env locals_env
        end
      end
    end.

(** ** Checker factories (lines 121-167) *)

Definition pure_checker (f : str -> verdict) : Checker :=
  fun ans => ret (f ans).

Definition check_exact (expected : str) : str -> verdict :=
  let exp := strip expected in
  fun ans =>
    let ok := str_eqb (strip ans) exp in
    (ok, if ok then u "Верно!" else u "Ожидалось: " ++ exp).

Definition check_mc (correct : str) : str -> verdict :=
  let correct := str_upper R (strip correct) in
  fun ans =>
    let a := str_upper R (strip ans) in
    let ok := str_eqb a correct in
    (ok, if ok then u "Верно!"
         else u "Неверно. Правильный ответ: " ++ correct).

Definition check_eval_equals (env : dict) (expected : value) : Checker :=
  fun ans h =>
    match safe_eval ans (Some env) h with
    | (Raise (Exc _ e), h') =>
      (Ok (false, u "Ошибка разбора/вычисления: " ++ e), h')
    | (Raise e, h') => (Raise e, h')
    | (Ok val, h') =>
      let ok := py_eq R h' val expected in
      let expl := u "Получилось " ++ py_repr R h' val
                  ++ u ", ожидалось " ++ py_repr R h' expected in
      (Ok (ok, if ok then u "Верно! " ++ expl else u "Неверно. " ++ expl),
       h')
    end.

Definition check_eval_predicate (env : dict) (predicate : value -> M bool)
  (expected_str : str) : Checker :=
  fun ans h =>
    match safe_eval ans (Some env) h with
    | (Raise (Exc _ e), h') => (Ok (false, u "Ошибка: " ++ e), h')
    | (Raise e, h') => (Raise e, h')
    | (Ok val, h') =>
      match predicate val h' with
      | (Ok ok, h'') =>
        (Ok (ok, if ok then u "Верно!"
                 else u "Неверно. Ожидалось: " ++ expected_str), h'')
      | (Raise e, h'') => (Raise e, h'')
      end
    end.

(** [[x.strip() for x in ans.strip().split(';') if x.strip()]] *)
Definition check_textio_got (ans : str) : list str :=
  map strip (filter (fun x => truthy (strip x))
                    (split semicolon (strip ans))).

Definition check_textio (expected_lines : list str) : str -> verdict :=
  let exp := map strip expected_lines in
  fun ans =>
    let got := check_textio_got ans in
    let ok := list_str_eqb got exp in
    (ok, if ok then u "Верно!" else u "Ожидалось: " ++ join (u "; ") exp).

(** ** Four items of [tasks] (lines 212-219, 291-335, 382-414) *)

Definition list_literal (zs : list Z) : M value :=
  alloc (OList (map VInt zs)).

(** [bool_truth] *)
Definition bool_truth_checker : Checker :=
  pure_checker (check_textio [u "False"; u "True"]).

(** [list_copy].  The list [[1,2,3]] of its environment is built once, when
    the module is loaded: [a] is its location. *)
Definition list_copy_predicate (v : value) : M bool :=
  il <- isinstance_list v ;;
  if negb il then ret false
  else
    lit <- list_literal [1; 2; 3]%Z ;;
    e <- value_eq v lit ;;
    if negb e then ret false
    else ret (match v with VNone => false | _ => true end).

Definition list_copy_checker (a : loc) : Checker :=
  check_eval_predicate [(u "a", VRef a)] list_copy_predicate
                       (u "список-копия").

(** [list_remove_evens]: the inner lambdas, evaluated once for the flag
    and once more for the message. *)
Definition list_remove_evens_res (ans : str) : M bool :=
  _nums <- list_literal [1; 2; 3; 4; 5; 6]%Z ;;
  _ <- exec ans [] [(u "nums", _nums)] ;;
  let res := _nums in
  il <- isinstance_list res ;;
  if negb il then ret false
  else
    lit <- list_literal [1; 3; 5]%Z ;;
    value_eq res lit.

Definition list_remove_evens_checker : Checker :=
  fun ans =>
    ok <- list_remove_evens_res ans ;;
    ok' <- list_remove_evens_res ans ;;
    ret (ok, if ok' then u "Верно!"
             else u "Неверно. Ожидалось, что nums станет [1,3,5]").

(** [bytearray_modify] *)
Definition bytearray_modify_res (ans : str) : M bool :=
  _ba <- alloc (OByteArray [97; 98; 99]%N) ;;
  _ <- exec ans [] [(u "ba", _ba)] ;;
  let res := _ba in
  lit <- alloc (OByteArray [65; 98; 99]%N) ;;
  value_eq res lit.

Definition bytearray_modify_checker : Checker :=
  fun ans =>
    ok <- bytearray_modify_res ans ;;
    ok' <- bytearray_modify_res ans ;;
    ret (ok, if ok' then u "Верно!"
             else u "Неверно. Ожидалось bytearray(b'Abc')").

(** ** The call of a checker in [run_tasks] (lines 481-484) *)

Definition run_tasks_check (checker : Checker) (ans : str) : M verdict :=
  fun h =>
    match checker ans h with
    | (Raise (Exc _ e), h') => (Ok (false, u "Ошибка проверки: " ++ e), h')
    | r => r
    end.

End Trainer.

(** ** A reference runtime for a fragment of Python

    One instance of [runtime], for closed examples.  It agrees with CPython
    (3.9 and later) on one-line programs of this grammar:
<<
    stmt    ::= expr | target '=' expr
    expr    ::= term (('+' | '-') term)*
    term    ::= factor (('*' | '//' | '%') factor)*
    factor  ::= ('+' | '-') factor | primary ['**' factor]
    primary ::= atom ('[' expr ']' | '[' ':' ']' | '.' NAME | '(' [expr] ')')*
    atom    ::= INT | NAME | 'None' | 'True' | 'False'
              | '(' expr ')' | '[' [expr (',' expr)*] ']'
>>
    over [int], [bool], [None], lists and bytearrays, with the built-in
    [len] and the method [copy] of a list.  A text outside the grammar is
    reported as a [SyntaxError], and an operation outside the fragment as a
    [NotImplementedError]; CPython does so only for a text that is no
    Python at all. *)
Module CPython.

Inductive token : Type :=
| TInt (z : Z) | TName (s : str)
| TPlus | TMinus | TStar | TDStar | TDSlash | TPercent
| TLPar | TRPar | TLBr | TRBr | TComma | TColon | TAssign | TDot.

Definition is_digit (c : N) : bool := ((48 <=? c) && (c <=? 57))%N.

Definition is_name_start (c : N) : bool :=
  ((65 <=? c) && (c <=? 90) || (97 <=? c) && (c <=? 122) || (c =? 95))%N.

Definition is_name_char (c : N) : bool := is_name_start c || is_digit c.

(** The longest prefix of [s] whose characters satisfy [p], and the rest. *)
Fixpoint span (p : N -> bool) (s : str) : str * str :=
  match s with
  | [] => ([], [])
  | c :: s' =>
    if p c then let (a, b) := span p s' in (c :: a, b) else ([], s)
  end.

Definition int_of_digits (ds : str) : Z :=
  fold_left (fun acc d => (acc * 10 + Z.of_N (d - 48))%Z) ds 0%Z.

Fixpoint tokenize (fuel : nat) (s : str) : option (list token) :=
  match fuel with
  | O => None
  | S fuel' =>
    match s with
    | [] => Some []
    | c :: s' =>
      let push (t : token) (rest : str) :=
        match tokenize fuel' rest with
        | Some ts => Some (t :: ts)
        | None => None
        end in
      if ((c =? 32) || (c =? 9))%N then tokenize fuel' s'
      else if is_digit c then
        let (ds, rest) := span is_digit s in
        match ds, rest with
        | 48%N :: _ :: _, _ => None
        | _, r :: _ =>
          if is_name_start r then None else push (TInt (int_of_digits ds)) rest
        | _, [] => push (TInt (int_of_digits ds)) rest
        end
      else if is_name_start c then
        let (nm, rest) := span is_name_char s in push (TName nm) rest
      else
        match c, s' with
        | 42%N, 42%N :: s'' => push TDStar s''
        | 47%N, 47%N :: s'' => push TDSlash s''
        | 42%N, _ => push TStar s'
        | 43%N, _ => push TPlus s'
        | 45%N, _ => push TMinus s'
        | 37%N, _ => push TPercent s'
        | 40%N, _ => push TLPar s'
        | 41%N, _ => push TRPar s'
        | 91%N, _ => push TLBr s'
        | 93%N, _ => push TRBr s'
        | 44%N, _ => push TComma s'
        | 58%N, _ => push TColon s'
        | 61%N, 61%N :: _ => None
        | 61%N, _ => push TAssign s'
        | 46%N, _ => push TDot s'
        | _, _ => None
        end
    end
  end.

(** The trees the parser builds, with the fields in the order of
    [_fields]. *)
Definition Load : node := Node ast_Load [].
Definition Store : node := Node ast_Store [].
Definition Constant (v : value) : node := Node (ast_Constant v) [].
Definition BinOp (left : node) (op : ast_class) (right : node) : node :=
  Node ast_BinOp [left; Node op []; right].
Definition UnaryOp (op : ast_class) (operand : node) : node :=
  Node ast_UnaryOp [Node op []; operand].
Definition Subscript (v slice ctx : node) : node :=
  Node ast_Subscript [v; slice; ctx].
Definition Attribute (v : node) (attr : str) (ctx : node) : node :=
  Node (ast_Attribute attr) [v; ctx].
Definition List_ (elts : list node) (ctx : node) : node :=
  Node ast_List (elts ++ [ctx]).
Definition Slice : node := Node ast_Slice [].
Definition Assign (target v : node) : node := Node ast_Assign [target; v].
Definition Expr (v : node) : node := Node ast_Expr [v].

Definition keyword_or_name (s : str) : option node :=
  if str_eqb s (u "None") then Some (Constant VNone)
  else if str_eqb s (u "True") then Some (Constant (VBool true))
  else if str_eqb s (u "False") then Some (Constant (VBool false))
  else if mem_str s
       [ u "and"; u "as"; u "assert"; u "async"; u "await"; u "break";
         u "class"; u "continue"; u "def"; u "del"; u "elif"; u "else";
         u "except"; u "finally"; u "for"; u "from"; u "global"; u "if";
         u "import"; u "in"; u "is"; u "lambda"; u "nonlocal"; u "not";
         u "or"; u "pass"; u "raise"; u "return"; u "try"; u "while";
         u "with"; u "yield" ]
  then None
  else Some (Name s Load).

Definition parsed := option (node * list token).

Fixpoint p_expr (fuel : nat) (ts : list token) : parsed :=
  match fuel with
  | O => None
  | S f =>
    match p_term f ts with
    | Some (l, ts') => p_expr_rest f l ts'
    | None => None
    end
  end
with p_expr_rest (fuel : nat) (l : node) (ts : list token) : parsed :=
  match fuel with
  | O => None
  | S f =>
    let continue (op : ast_class) (ts' : list token) :=
      match p_term f ts' with
      | Some (r, ts'') => p_expr_rest f (BinOp l op r) ts''
      | None => None
      end in
    match ts with
    | TPlus :: ts' => continue ast_Add ts'
    | TMinus :: ts' => continue ast_Sub ts'
    | _ => Some (l, ts)
    end
  end
with p_term (fuel : nat) (ts : list token) : parsed :=
  match fuel with
  | O => None
  | S f =>
    match p_factor f ts with
    | Some (l, ts') => p_term_rest f l ts'
    | None => None
    end
  end
with p_term_rest (fuel : nat) (l : node) (ts : list token) : parsed :=
  match fuel with
  | O => None
  | S f =>
    let continue (op : ast_class) (ts' : list token) :=
      match p_factor f ts' with
      | Some (r, ts'') => p_term_rest f (BinOp l op r) ts''
      | None => None
      end in
    match ts with
    | TStar :: ts' => continue ast_Mult ts'
    | TDSlash :: ts' => continue ast_FloorDiv ts'
    | TPercent :: ts' => continue ast_Mod ts'
    | _ => Some (l, ts)
    end
  end
with p_factor (fuel : nat) (ts : list token) : parsed :=
  match fuel with
  | O => None
  | S f =>
    let unary (op : ast_class) (ts' : list token) :=
      match p_factor f ts' with
      | Some (e, ts'') => Some (UnaryOp op e, ts'')
      | None => None
      end in
    match ts with
    | TPlus :: ts' => unary ast_UAdd ts'
    | TMinus :: ts' => unary ast_USub ts'
    | _ =>
      match p_atom f ts with
      | Some (a, ts') =>
        match p_trailers f a ts' with
        | Some (b, TDStar :: ts'') =>
          match p_factor f ts'' with
          | Some (e, ts''') => Some (BinOp b ast_Pow e, ts''')
          | None => None
          end
        | r => r
        end
      | None => None
      end
    end
  end
with p_trailers (fuel : nat) (a : node) (ts : list token) : parsed :=
  match fuel with
  | O => None
  | S f =>
    match ts with
    | TLBr :: TColon :: TRBr :: ts' =>
      p_trailers f (Subscript a Slice Load) ts'
    | TLBr :: ts' =>
      match p_expr f ts' with
      | Some (i, TRBr :: ts'') => p_trailers f (Subscript a i Load) ts''
      | _ => None
      end
    | TDot :: TName attr :: ts' =>
      match keyword_or_name attr with
      | Some (Name _ _) => p_trailers f (Attribute a attr Load) ts'
      | _ => None
      end
    | TLPar :: TRPar :: ts' => p_trailers f (Call a [] []) ts'
    | TLPar :: ts' =>
      match p_expr f ts' with
      | Some (x, TRPar :: ts'') => p_trailers f (Call a [x] []) ts''
      | _ => None
      end
    | _ => Some (a, ts)
    end
  end
with p_atom (fuel : nat) (ts : list token) : parsed :=
  match fuel with
  | O => None
  | S f =>
    match ts with
    | TInt z :: ts' => Some (Constant (VInt z), ts')
    | TName s :: ts' =>
      match keyword_or_name s with
      | Some n => Some (n, ts')
      | None => None
      end
    | TLPar :: ts' =>
      match p_expr f ts' with
      | Some (e, TRPar :: ts'') => Some (e, ts'')
      | _ => None
      end
    | TLBr :: TRBr :: ts' => Some (List_ [] Load, ts')
    | TLBr :: ts' =>
      match p_elts f ts' with
      | Some (elts, TRBr :: ts'') => Some (List_ elts Load, ts'')
      | _ => None
      end
    | _ => None
    end
  end
with p_elts (fuel : nat) (ts : list token) : option (list node * list token) :=
  match fuel with
  | O => None
  | S f =>
    match p_expr f ts with
    | Some (e, TComma :: ts') =>
      match p_elts f ts' with
      | Some (es, ts'') => Some (e :: es, ts'')
      | None => None
      end
    | Some (e, ts') => Some ([e], ts')
    | None => None
    end
  end.

(** [str(e)] of a [SyntaxError] names the file and the line.  The text is
    CPython's general one; for some ill-formed inputs (an open bracket, a
    literal as a target) CPython has a more specific text. *)
Definition syntax_error {A : Type} (filename : str) : A + (str * str) :=
  inr (u "SyntaxError", u "invalid syntax (" ++ filename ++ u ", line 1)").

Definition tokens (s : str) : option (list token) :=
  tokenize (S (List.length s)) s.

Definition parser_fuel (ts : list token) : nat := 8 * S (List.length ts).

Definition indentation_error {A : Type} (filename : str)
  : A + (str * str) :=
  inr (u "IndentationError",
       u "unexpected indent (" ++ filename ++ u ", line 1)").

Definition indented (s : str) : bool :=
  match s with
  | c :: _ => ((c =? 32) || (c =? 9))%N
  | [] => false
  end.

Definition cpy_parse_eval (s : str) : node + (str * str) :=
  match tokens s with
  | Some [] => syntax_error (u "<unknown>")
  | Some ts =>
    if indented s then indentation_error (u "<unknown>") else
    match p_expr (parser_fuel ts) ts with
    | Some (e, []) => inl e
    | _ => syntax_error (u "<unknown>")
    end
  | None => syntax_error (u "<unknown>")
  end.

(** The target of an assignment, in [Store] context. *)
Definition as_target (n : node) : option node :=
  match n with
  | Name id _ => Some (Name id Store)
  | Node ast_Subscript [v; slice; _] => Some (Subscript v slice Store)
  | Node (ast_Attribute attr) [v; _] => Some (Attribute v attr Store)
  | _ => None
  end.

Definition cpy_parse_exec (s : str) : list node + (str * str) :=
  match tokens s with
  | Some [] => inl []
  | Some ts =>
    if indented s then indentation_error (u "<string>") else
    match p_expr (parser_fuel ts) ts with
    | Some (e, []) => inl [Expr e]
    | Some (t, TAssign :: ts') =>
      match as_target t, p_expr (parser_fuel ts') ts' with
      | Some target, Some (e, []) => inl [Assign target e]
      | _, _ => syntax_error (u "<string>")
      end
    | _ => syntax_error (u "<string>")
    end
  | None => syntax_error (u "<string>")
  end.


(** *** Evaluation *)

Definition not_implemented {A : Type} : M A :=
  throw (Exc (u "NotImplementedError") (u "outside the modelled fragment")).

Definition as_int (v : value) : option Z :=
  match v with
  | VInt z => Some z
  | VBool b => Some (Z.b2z b)
  | _ => None
  end.

Definition deref (v : value) : M object :=
  fun h => match v with
           | VRef l => match nth_error h l with
                       | Some o => (Ok o, h)
                       | None => not_implemented h
                       end
           | _ => not_implemented h
           end.

Fixpoint replace_nth {A : Type} (n : nat) (x : A) (l : list A) : list A :=
  match l, n with
  | [], _ => []
  | _ :: l', O => x :: l'
  | y :: l', S n' => y :: replace_nth n' x l'
  end.

Definition store (v : value) (o : object) : M unit :=
  fun h => match v with
           | VRef l => (Ok tt, replace_nth l o h)
           | _ => not_implemented h
           end.

(** The position an index denotes in a sequence of length [len]. *)
Definition index_in (i : Z) (len : nat) : option nat :=
  let j := if (i <? 0)%Z then (i + Z.of_nat len)%Z else i in
  if ((0 <=? j) && (j <? Z.of_nat len))%Z then Some (Z.to_nat j) else None.

Definition binop_int (op : ast_class) (a b : Z) : M value :=
  match op with
  | ast_Add => ret (VInt (a + b))
  | ast_Sub => ret (VInt (a - b))
  | ast_Mult => ret (VInt (a * b))
  | ast_FloorDiv =>
    if (b =? 0)%Z
    then throw (Exc (u "ZeroDivisionError")
                    (u "integer division or modulo by zero"))
    else ret (VInt (a / b))
  | ast_Mod =>
    if (b =? 0)%Z
    then throw (Exc (u "ZeroDivisionError")
                    (u "integer division or modulo by zero"))
    else ret (VInt (a mod b))
  | ast_Pow => if (b <? 0)%Z then not_implemented else ret (VInt (a ^ b))
  | _ => not_implemented
  end.

Definition builtins : dict := [(u "len", VBuiltin (u "len"))].

Definition lookup (id : str) (globals locals : dict) : M value :=
  match dict_get id locals with
  | Some v => ret v
  | None =>
    match dict_get id globals with
    | Some v => ret v
    | None =>
      match dict_get id builtins with
      | Some v => ret v
      | None =>
        throw (Exc (u "NameError")
                   (u "name '" ++ id ++ u "' is not defined"))
      end
    end
  end.

Fixpoint eval_expr (fuel : nat) (globals locals : dict) (n : node)
  : M value :=
  match fuel with
  | O => not_implemented
  | S f =>
    let ev := eval_expr f globals locals in
    let ev_list :=
      fix go (l : list node) : M (list value) :=
        match l with
        | [] => ret []
        | x :: l' => v <- ev x ;; vs <- go l' ;; ret (v :: vs)
        end in
    match n with
    | Node (ast_Constant v) [] => ret v
    | Name id _ => lookup id globals locals
    | Node ast_List children =>
      vs <- ev_list (removelast children) ;; alloc (OList vs)
    | Node ast_BinOp [l; Node op []; r] =>
      a <- ev l ;; b <- ev r ;;
      match as_int a, as_int b with
      | Some x, Some y => binop_int op x y
      | _, _ => not_implemented
      end
    | Node ast_UnaryOp [Node op []; e] =>
      a <- ev e ;;
      match op, as_int a with
      | ast_USub, Some x => ret (VInt (- x))
      | ast_UAdd, Some x => ret (VInt x)
      | _, _ => not_implemented
      end
    | Node ast_Subscript [e; Node ast_Slice []; _] =>
      v <- ev e ;; o <- deref v ;;
      match o with
      | OList items => alloc (OList items)
      | OByteArray bs => alloc (OByteArray bs)
      | _ => not_implemented
      end
    | Node ast_Subscript [e; i; _] =>
      v <- ev e ;; o <- deref v ;; iv <- ev i ;;
      match o, as_int iv with
      | OList items, Some k =>
        match index_in k (List.length items) with
        | Some j => match nth_error items j with
                    | Some x => ret x
                    | None => not_implemented
                    end
        | None =>
          throw (Exc (u "IndexError") (u "list index out of range"))
        end
      | OByteArray bs, Some k =>
        match index_in k (List.length bs) with
        | Some j => ret (VInt (Z.of_N (nth j bs 0%N)))
        | None =>
          throw (Exc (u "IndexError") (u "bytearray index out of range"))
        end
      | _, _ => not_implemented
      end
    | Call (Node (ast_Attribute attr) [e; _]) [] [] =>
      v <- ev e ;; o <- deref v ;;
      match o with
      | OList items =>
        if str_eqb attr (u "copy") then alloc (OList items)
        else not_implemented
      | _ => not_implemented
      end
    | Call func [x] [] =>
      fv <- ev func ;; v <- ev x ;;
      match fv with
      | VBuiltin name =>
        if str_eqb name (u "len") then
          o <- deref v ;;
          match o with
          | OList items => ret (VInt (Z.of_nat (List.length items)))
          | OByteArray bs => ret (VInt (Z.of_nat (List.length bs)))
          | _ => not_implemented
          end
        else not_implemented
      | _ => not_implemented
      end
    | _ => not_implemented
    end
  end.

Definition is_byte (v : value) : option N :=
  match as_int v with
  | Some z => if ((0 <=? z) && (z <? 256))%Z then Some (Z.to_N z) else None
  | None => None
  end.

Fixpoint all_bytes (vs : list value) : option (list N) :=
  match vs with
  | [] => Some []
  | v :: vs' =>
    match is_byte v, all_bytes vs' with
    | Some b, Some bs => Some (b :: bs)
    | _, _ => None
    end
  end.

(** One statement; the value is the local namespace after it. *)
Definition exec_stmt (globals locals : dict) (s : node) : M dict :=
  let ev (n : node) := eval_expr (S (size n)) globals locals n in
  match s with
  | Node ast_Expr [e] => _ <- ev e ;; ret locals
  | Node ast_Assign [Name id _; e] => v <- ev e ;; ret (dict_set id v locals)
  | Node ast_Assign [Node ast_Subscript [t; Node ast_Slice []; _]; e] =>
    v <- ev e ;; tv <- ev t ;; o <- deref tv ;;
    match o, v with
    | OList _, VRef _ =>
      src <- deref v ;;
      match src with
      | OList items => _ <- store tv (OList items) ;; ret locals
      | OByteArray bs =>
        _ <- store tv (OList (map (fun b => VInt (Z.of_N b)) bs)) ;;
        ret locals
      | _ => not_implemented
      end
    | OByteArray _, VRef _ =>
      src <- deref v ;;
      match src with
      | OByteArray bs => _ <- store tv (OByteArray bs) ;; ret locals
      | OList items =>
        match all_bytes items with
        | Some bs => _ <- store tv (OByteArray bs) ;; ret locals
        | None => not_implemented
        end
      | _ => not_implemented
      end
    | OList _, (VNone | VBool _ | VInt _) =>
      throw (Exc (u "TypeError") (u "can only assign an iterable"))
    | _, _ => not_implemented
    end
  | Node ast_Assign [Node ast_Subscript [t; i; _]; e] =>
    v <- ev e ;; tv <- ev t ;; o <- deref tv ;; iv <- ev i ;;
    match o, as_int iv with
    | OList items, Some k =>
      match index_in k (List.length items) with
      | Some j => _ <- store tv (OList (replace_nth j v items)) ;; ret locals
      | None =>
        throw (Exc (u "IndexError")
                   (u "list assignment index out of range"))
      end
    | OByteArray bs, Some k =>
      match as_int v with
      | None => not_implemented
      | Some _ =>
        match is_byte v with
        | None =>
          throw (Exc (u "ValueError") (u "byte must be in range(0, 256)"))
        | Some b =>
          match index_in k (List.length bs) with
          | Some j =>
            _ <- store tv (OByteArray (replace_nth j b bs)) ;; ret locals
          | None =>
            throw (Exc (u "IndexError") (u "bytearray index out of range"))
          end
        end
      end
    | _, _ => not_implemented
    end
  | _ => not_implemented
  end.

Fixpoint exec_stmts (globals locals : dict) (ss : list node) : M unit :=
  match ss with
  | [] => ret tt
  | s :: ss' =>
    locals' <- exec_stmt globals locals s ;; exec_stmts globals locals' ss'
  end.

Definition cpy_eval_code (tree : node) (globals locals : dict) : M value :=
  match tree with
  | Node ast_Expression [body] =>
    eval_expr (S (size body)) globals locals body
  | _ => not_implemented
  end.

Definition cpy_exec_code (tree : node) (globals locals : dict) : M unit :=
  match tree with
  | Node ast_Module body => exec_stmts globals locals body
  | _ => not_implemented
  end.

(** *** [==], [repr], [upper] *)

Definition bytes_eqb (a b : list N) : bool := str_eqb a b.

Fixpoint cpy_eq_fuel (fuel : nat) (h : heap) (a b : value) : bool :=
  match fuel with
  | O => false
  | S f =>
    let eq_items :=
      fix go (x y : list value) : bool :=
        match x, y with
        | [], [] => true
        | v :: x', w :: y' => cpy_eq_fuel f h v w && go x' y'
        | _, _ => false
        end in
    match a, b with
    | VNone, VNone => true
    | (VInt _ | VBool _), (VInt _ | VBool _) =>
      match as_int a, as_int b with
      | Some x, Some y => (x =? y)%Z
      | _, _ => false
      end
    | VStr s, VStr t => str_eqb s t
    | VBytes s, VBytes t => bytes_eqb s t
    | VTuple x, VTuple y => eq_items x y
    | VBuiltin s, VBuiltin t => str_eqb s t
    | VRef l, VRef m =>
      if Nat.eqb l m then true
      else match nth_error h l, nth_error h m with
           | Some (OList x), Some (OList y) => eq_items x y
           | Some (OByteArray s), Some (OByteArray t) => bytes_eqb s t
           | _, _ => false
           end
    | VBytes s, VRef l | VRef l, VBytes s =>
      match nth_error h l with
      | Some (OByteArray t) => bytes_eqb s t
      | _ => false
      end
    | _, _ => false
    end
  end.

Definition cpy_eq (h : heap) (a b : value) : bool := cpy_eq_fuel 64 h a b.

Definition repr_int (z : Z) : str :=
  u (DecimalString.NilZero.string_of_int (Z.to_int z)).

Fixpoint cpy_repr_fuel (fuel : nat) (h : heap) (v : value) : str :=
  match fuel with
  | O => u "..."
  | S f =>
    let items (vs : list value) :=
      join (u ", ") (map (cpy_repr_fuel f h) vs) in
    match v with
    | VNone => u "None"
    | VBool true => u "True"
    | VBool false => u "False"
    | VInt z => repr_int z
    | VStr s => u "'" ++ s ++ u "'"
    | VBytes bs => u "b'" ++ bs ++ u "'"
    | VTuple [x] => u "(" ++ cpy_repr_fuel f h x ++ u ",)"
    | VTuple vs => u "(" ++ items vs ++ u ")"
    | VBuiltin name => u "<built-in function " ++ name ++ u ">"
    | VRef l =>
      match nth_error h l with
      | Some (OList vs) => u "[" ++ items vs ++ u "]"
      | Some (OByteArray bs) => u "bytearray(b'" ++ bs ++ u "')"
      | _ => u "..."
      end
    end
  end.

Definition cpy_repr (h : heap) (v : value) : str := cpy_repr_fuel 64 h v.

Definition cpy_upper (s : str) : str :=
  map (fun c => if ((97 <=? c) && (c <=? 122))%N then (c - 32)%N else c) s.

Definition cpy : runtime :=
  {| parse_eval := cpy_parse_eval;
     parse_exec := cpy_parse_exec;
     eval_code := cpy_eval_code;
     exec_code := cpy_exec_code;
     py_eq := cpy_eq;
     py_repr := cpy_repr;
     str_upper := cpy_upper |}.

End CPython.

(** ** The session (lines 107-116, 437-507)

    The console is a list of the lines typed, without their newline, and
    the list of what is written: [input(prompt)] writes the prompt and
    takes the next line, or raises [EOFError] when none is left.  The
    functions of the runtime the session calls are parameters:
    [str.lower], [random.shuffle], [textwrap.indent] and the comparison
    of floats [score / total >= 0.7]; so is the list [tasks] of the
    items. *)

Inductive event : Type :=
| Printed (s : str)
| Asked (prompt : str).

Record Task : Type := {
  task_id : str;
  title : str;
  level : str;
  prompt : str;
  hint : str;
  checker : Checker
}.

Definition EOFError : exc := Exc (u "EOFError") (u "EOF when reading a line").

(** [str(n)] in an f-string *)
Definition str_of_nat (n : nat) : str :=
  u (NilZero.string_of_uint (Nat.to_uint n)).

(** [s.rstrip("\n")] *)
Fixpoint rstrip_newline (s : str) : str :=
  match s with
  | [] => []
  | c :: s' =>
    match rstrip_newline s' with
    | [] => if (c =? 10)%N then [] else [c]
    | r => c :: r
    end
  end.

Definition WELCOME : str :=
  strip
    (join [10%N]
     [[];
      u "Добро пожаловать в мини‑тренажёр по типам данных Python!";
      u "Выбери режим:";
      u "  1) Разогрев (базовые)";
      u "  2) Чуть сложнее";
      u "  3) Смешанный (всё вперемешку)";
      u "Напечатай 1/2/3 и жми Enter.";
      []]).

(** How the [while] loop of one item ends: [break] after a passing
    answer, [break] after a failing one, [return] on [q], or an exception
    that leaves [run_tasks]. *)
Inductive attempt : Type :=
| Solved
| Skipped
| Quit
| Crashed (e : exc).

(** How the [for] loop over the pool ends: at its end with the score,
    by [return] with the score and the number of items done, or by an
    exception. *)
Inductive session_end : Type :=
| Finished (score : nat)
| Left (score done : nat)
| Aborted (e : exc).

Section Session.

Variable lower : str -> str.
Variable shuffle : list Task -> list Task.
Variable indent : str -> str -> str.
Variable at_least_70_percent : nat -> nat -> bool.
Variable tasks : list Task.

(** The loop of [select_mode] (lines 449-453). *)
Fixpoint select_mode_loop (inputs : list str) (out : list event)
  : result str * list str * list event :=
  match inputs with
  | [] => (Raise EOFError, [], out ++ [Asked (u "> ")])
  | line :: rest =>
    let out := out ++ [Asked (u "> ")] in
    let choice := strip line in
    if str_eqb choice (u "1") then (Ok (u "easy"), rest, out)
    else if str_eqb choice (u "2") then (Ok (u "hard"), rest, out)
    else if str_eqb choice (u "3") then (Ok (u "mixed"), rest, out)
    else select_mode_loop rest (out ++ [Printed (u "Введите 1, 2 или 3.")])
  end.

Definition select_mode (inputs : list str) (out : list event)
  : result str * list str * list event :=
  select_mode_loop inputs (out ++ [Printed WELCOME]).

(** The [while True] loop of one item (lines 472-493). *)
Fixpoint ask (task : Task) (score i : nat) (inputs : list str)
  (out : list event) (h : heap)
  : attempt * list str * list event * heap :=
  match inputs with
  | [] => (Crashed EOFError, [], out ++ [Asked (u "Ваш ответ: ")], h)
  | line :: rest =>
    let out := out ++ [Asked (u "Ваш ответ: ")] in
    let ans := rstrip_newline line in
    if str_eqb (lower (strip ans)) (u "q") then
      (Quit, rest,
       out ++ [Printed (u "Выход из тренажёра. Спасибо за игру!");
               Printed (u "Результат: " ++ str_of_nat score ++ u "/"
                          ++ str_of_nat (i - 1))],
       h)
    else if str_eqb (strip ans) (u "?") then
      ask task score i rest
          (out ++ [Printed (u "Подсказка: " ++ hint task)]) h
    else
      match run_tasks_check (checker task) ans h with
      | (Raise e, h') => (Crashed e, rest, out, h')
      | (Ok (ok, msg), h') =>
        let out := out ++ [Printed msg] in
        if ok then (Solved, rest, out, h')
        else
          match rest with
          | [] =>
            (Crashed EOFError, [],
             out ++ [Asked (u "Попробовать ещё раз? (y/n): ")], h')
          | line' :: rest' =>
            let out := out ++ [Asked (u "Попробовать ещё раз? (y/n): ")] in
            let retry := lower (strip line') in
            if negb (str_eqb retry (u "y")) then (Skipped, rest', out, h')
            else ask task score i rest' out h'
          end
      end
  end.

(** The [for] loop over the pool (lines 468-494). *)
Fixpoint run_pool (pool : list Task) (i score total : nat)
  (inputs : list str) (out : list event) (h : heap)
  : session_end * list str * list event * heap :=
  match pool with
  | [] => (Finished score, inputs, out, h)
  | task :: pool' =>
    let out :=
      out ++ [Printed (u "[" ++ str_of_nat i ++ u "/" ++ str_of_nat total
                         ++ u "] " ++ title task);
              Printed (indent (prompt task) (u "  "))] in
    match ask task score i inputs out h with
    | (Solved, inputs', out', h') =>
      run_pool pool' (S i) (S score) total inputs'
               (out' ++ [Printed (repeat 45%N 60)]) h'
    | (Skipped, inputs', out', h') =>
      run_pool pool' (S i) score total inputs'
               (out' ++ [Printed (repeat 45%N 60)]) h'
    | (Quit, inputs', out', h') => (Left score (i - 1), inputs', out', h')
    | (Crashed e, inputs', out', h') => (Aborted e, inputs', out', h')
    end
  end.

(** Lines 457-462. *)
Definition pool_of (mode : str) : list Task :=
  shuffle (if str_eqb mode (u "mixed") then tasks
           else filter (fun t => str_eqb (level t) mode) tasks).

(** Lines 496-502. *)
Definition closing (score total : nat) : list event :=
  [Printed (u "Готово! Ваш счёт: " ++ str_of_nat score ++ u "/"
              ++ str_of_nat total);
   Printed (if Nat.eqb score total then u "Идеально! 🔥"
            else if at_least_70_percent score total
                 then u "Отличный результат! 💪"
                 else u "Хорошее начало — можно ещё потренироваться. 🙂")].

Definition run_tasks (mode : str) (inputs : list str) (out : list event)
  (h : heap) : result unit * list str * list event * heap :=
  let pool := pool_of mode in
  let score := 0 in
  let total := List.length pool in
  let out :=
    out ++ [Printed ([10%N] ++ u "Стартуем! Всего задач: " ++ str_of_nat total ++ u ". Для подсказки введи: ?  Для выхода: q"
                       ++ [10%N])] in
  match run_pool pool 1 score total inputs out h with
  | (Finished score, inputs', out', h') =>
    (Ok tt, inputs', out' ++ closing score total, h')
  | (Left _ _, inputs', out', h') => (Ok tt, inputs', out', h')
  | (Aborted e, inputs', out', h') => (Raise e, inputs', out', h')
  end.

(** Lines 505-507. *)
Definition main (inputs : list str) (h : heap)
  : result unit * list str * list event * heap :=
  match select_mode inputs [] with
  | (Ok mode, inputs', out) => run_tasks mode inputs' out h
  | (Raise e, inputs', out) => (Raise e, inputs', out, h)
  end.

End Session.

(** ** Vocabulary of the statements *)

(** A blank string: nothing but whitespace. *)
Definition blank (s : str) : Prop := Forall (fun c => isspace c = true) s.

(** [f] on the first, [g] on the last element of a list. *)
Definition on_head {A : Type} (f : A -> A) (l : list A) : list A :=
  match l with
  | [] => []
  | x :: l' => f x :: l'
  end.

Fixpoint on_last {A : Type} (g : A -> A) (l : list A) : list A :=
  match l with
  | [] => []
  | [x] => [g x]
  | x :: l' => x :: on_last g l'
  end.

(** The segments [check_textio] keeps: those that are not empty once
    stripped. *)
Definition kept (x : str) : bool := truthy (strip x).

(** The nodes in a queue and below. *)
Definition total_size (q : list node) : nat := list_sum (map size q).

(** A call whose callee is not a bare name, or is a bare name outside
    [ALLOWED_CALLS]. *)
Definition offending_call (n : node) : Prop :=
  match n with
  | Call (Name id _) _ _ => mem_str id ALLOWED_CALLS = false
  | Call _ _ _ => True
  | _ => False
  end.


(** The heap when the module is loaded, as far as [list_copy] goes: the
    list [a] of its environment, at location 0. *)
Definition tasks_heap : heap := [OList [VInt 1; VInt 2; VInt 3]].

(** A reference to a name outside [ALLOWED_NAMES]. *)
Definition offending_name (n : node) : Prop :=
  match n with
  | Name id _ => mem_str id ALLOWED_NAMES = false
  | _ => False
  end.

(** An expected line [check_textio] can be answered: not empty once
    stripped, and without the separator. *)
Definition answerable (line : str) : Prop :=
  strip line <> [] /\ ~ In semicolon (strip line).

(** The mode a choice stands for in [select_mode]. *)
Definition mode_of_choice (choice : str) : option str :=
  if str_eqb choice (u "1") then Some (u "easy")
  else if str_eqb choice (u "2") then Some (u "hard")
  else if str_eqb choice (u "3") then Some (u "mixed")
  else None.

(** A line that asks for the hint and is not taken for [q]. *)
Definition hint_line (lower : str -> str) (line : str) : Prop :=
  strip (rstrip_newline line) = u "?"
  /\ lower (strip (rstrip_newline line)) <> u "q".

(** An item checked by [check_eval_equals] or [check_eval_predicate]. *)
Definition eval_task (R : runtime) (t : Task) : Prop :=
  (exists env expected, checker t = check_eval_equals R env expected)
  \/ (exists env predicate expected_str,
        checker t = check_eval_predicate R env predicate expected_str).

(** Two items of [tasks] (lines 174-187, 212-219); the prompt of
    [none_is] is its text after [textwrap.dedent] and [strip]. *)
Definition task_none_is (R : runtime) : Task :=
  {| task_id := u "none_is";
     title := u "Проверка на None";
     level := u "easy";
     prompt :=
       join [10%N]
            [u "Дано: x = None";
             u "Напиши выражение, которое True, только если x действительно None.";
             u "(Пиши ТОЛЬКО выражение.)"];
     hint := u "Используй оператор идентичности, не сравнение.";
     checker := check_eval_equals R [(u "x", VNone)] (VBool true) |}.

Definition task_bool_truth : Task :=
  {| task_id := u "bool_truth";
     title := u "Истинность";
     level := u "easy";
     prompt :=
       u "Что выведет print? Запиши через ';' без пробелов: bool("
         ++ [34%N; 34%N] ++ u "); bool([0])";
     hint := u "Пустая строка — ложь, непустой список — истина.";
     checker := bool_truth_checker |}.

(** * Properties *)

(** ** Strings *)

Lemma str_eqb_eq (a b : str) : str_eqb a b = true <-> a = b.
Proof.
  unfold str_eqb. destruct (list_eq_dec N.eq_dec a b); split; congruence.
Qed.

Lemma str_eqb_refl (a : str) : str_eqb a a = true.
Proof. now apply str_eqb_eq. Qed.

Lemma list_str_eqb_eq (a b : list str) : list_str_eqb a b = true <-> a = b.
Proof.
  revert b; induction a as [|x a IH]; intros [|y b]; simpl;
    try (split; [discriminate | congruence]); try tauto.
  rewrite andb_true_iff, str_eqb_eq, IH. split.
  - intros [-> ->]; reflexivity.
  - intros H; injection H; auto.
Qed.

Example u_ascii : u "a;b" = [97; 59; 98]%N.
Proof. reflexivity. Qed.

Example u_cyrillic : u "Верно!" = [1042; 1077; 1088; 1085; 1086; 33]%N.
Proof. reflexivity. Qed.

Example split_ex : split semicolon (u "a;;b;") = [u "a"; []; u "b"; []].
Proof. reflexivity. Qed.

Example strip_ex : strip (u "  a b	 ") = u "a b".
Proof. reflexivity. Qed.

Lemma lstrip_blank (s : str) : blank s -> lstrip s = [].
Proof.
  induction 1 as [|c s Hc _ IH]; simpl; [reflexivity|].
  now rewrite Hc.
Qed.

Lemma strip_blank (s : str) : blank s -> strip s = [].
Proof. intros H. unfold strip. now rewrite lstrip_blank. Qed.

Lemma rstrip_nil_blank (s : str) : rstrip s = [] -> blank s.
Proof.
  induction s as [|c s IH]; simpl; intros H; [constructor|].
  destruct (rstrip s) eqn:E; [|discriminate].
  destruct (isspace c) eqn:Hc; [|discriminate].
  constructor; [assumption | now apply IH].
Qed.

Lemma lstrip_suffix_blank (s : str) :
  exists w, blank w /\ s = w ++ lstrip s.
Proof.
  induction s as [|c s (w & Hw & E)]; simpl.
  - exists []. split; [constructor | reflexivity].
  - destruct (isspace c) eqn:Hc.
    + exists (c :: w). split; [now constructor | simpl; congruence].
    + exists []. split; [constructor | reflexivity].
Qed.

Lemma blank_app (a b : str) : blank a -> blank b -> blank (a ++ b).
Proof. intros Ha Hb. apply Forall_app. now split. Qed.

Lemma strip_nil_blank (s : str) : strip s = [] <-> blank s.
Proof.
  split; [|apply strip_blank].
  unfold strip. intros H. apply rstrip_nil_blank in H.
  destruct (lstrip_suffix_blank s) as (w & Hw & E).
  rewrite E. now apply blank_app.
Qed.

Lemma lstrip_idem (s : str) : lstrip (lstrip s) = lstrip s.
Proof.
  induction s as [|c s IH]; simpl; [reflexivity|].
  destruct (isspace c) eqn:Hc; [assumption|].
  simpl. now rewrite Hc.
Qed.

Lemma rstrip_cons_ne (c : N) (s : str) :
  rstrip s <> [] -> rstrip (c :: s) = c :: rstrip s.
Proof. simpl. destruct (rstrip s); congruence. Qed.

Lemma rstrip_idem (s : str) : rstrip (rstrip s) = rstrip s.
Proof.
  induction s as [|c s IH]; simpl; [reflexivity|].
  destruct (rstrip s) as [|d r] eqn:E.
  - destruct (isspace c) eqn:Hc; simpl; [reflexivity|]. now rewrite Hc.
  - rewrite rstrip_cons_ne; rewrite IH; congruence.
Qed.

Lemma lstrip_rstrip (s : str) : lstrip (rstrip s) = rstrip (lstrip s).
Proof.
  induction s as [|c s IH]; simpl; [reflexivity|].
  destruct (isspace c) eqn:Hc.
  - destruct (rstrip s) as [|d r] eqn:E.
    + simpl in IH. now rewrite <- IH.
    + simpl. now rewrite Hc.
  - simpl rstrip at 2.
    destruct (rstrip s) as [|d r]; simpl; now rewrite Hc.
Qed.

Lemma strip_lstrip (s : str) : strip (lstrip s) = strip s.
Proof. unfold strip. now rewrite lstrip_idem. Qed.

Lemma strip_rstrip (s : str) : strip (rstrip s) = strip s.
Proof. unfold strip. now rewrite lstrip_rstrip, rstrip_idem. Qed.

Lemma isspace_semicolon : isspace semicolon = false.
Proof. reflexivity. Qed.

Lemma isspace_not_semicolon (c : N) :
  isspace c = true -> (c =? semicolon)%N = false.
Proof.
  intros H. destruct (N.eqb_spec c semicolon) as [->|]; [|reflexivity].
  discriminate H.
Qed.

Lemma split_nonempty (sep : N) (s : str) : split sep s <> [].
Proof.
  destruct s as [|c s]; simpl; [discriminate|].
  destruct (c =? sep)%N; [discriminate|].
  destruct (split sep s); discriminate.
Qed.

Lemma split_cons_other (sep c : N) (s : str) :
  (c =? sep)%N = false ->
  exists seg rest,
    split sep s = seg :: rest /\ split sep (c :: s) = (c :: seg) :: rest.
Proof.
  intros H. simpl. rewrite H.
  destruct (split sep s) as [|seg rest] eqn:E.
  - now destruct (split_nonempty sep s).
  - now exists seg, rest.
Qed.

Lemma split_blank (s : str) : blank s -> split semicolon s = [s].
Proof.
  induction 1 as [|c s Hc _ IH]; [reflexivity|].
  simpl. rewrite (isspace_not_semicolon c Hc), IH. reflexivity.
Qed.

Lemma split_app (sep : N) (a b : str) :
  split sep (a ++ sep :: b) = split sep a ++ split sep b.
Proof.
  induction a as [|c a IH]; simpl.
  - now rewrite N.eqb_refl.
  - destruct (c =? sep)%N; [now rewrite IH|].
    rewrite IH. destruct (split sep a) eqn:E; [|reflexivity].
    now destruct (split_nonempty sep a).
Qed.

Lemma on_last_cons {A : Type} (g : A -> A) (x : A) (l : list A) :
  l <> [] -> on_last g (x :: l) = x :: on_last g l.
Proof. destruct l; [congruence | reflexivity]. Qed.

Lemma split_lstrip (s : str) :
  split semicolon (lstrip s) = on_head lstrip (split semicolon s).
Proof.
  induction s as [|c s IH]; [reflexivity|].
  simpl lstrip. destruct (isspace c) eqn:Hc.
  - destruct (split_cons_other semicolon c s (isspace_not_semicolon c Hc))
      as (seg & rest & E1 & E2).
    rewrite E2, IH, E1. simpl. now rewrite Hc.
  - simpl. destruct (c =? semicolon)%N; [reflexivity|].
    destruct (split semicolon s); simpl; now rewrite Hc.
Qed.

Lemma split_single (sep : N) (s seg : str) : split sep s = [seg] -> s = seg.
Proof.
  revert seg. induction s as [|c s IH]; simpl; intros seg H.
  - congruence.
  - destruct (c =? sep)%N.
    + injection H as _ H. now destruct (split_nonempty sep s).
    + destruct (split sep s) as [|x [|y r]] eqn:E.
      * now destruct (split_nonempty sep s).
      * injection H as <-. f_equal. now apply IH.
      * discriminate.
Qed.

Lemma split_rstrip (s : str) :
  split semicolon (rstrip s) = on_last rstrip (split semicolon s).
Proof.
  induction s as [|c s IH]; [reflexivity|].
  destruct (rstrip s) as [|d r] eqn:E.
  - pose proof (rstrip_nil_blank s E) as Hb.
    simpl rstrip. rewrite E. simpl split at 2. rewrite (split_blank s Hb).
    destruct (isspace c) eqn:Hc.
    + rewrite (isspace_not_semicolon c Hc). simpl. now rewrite E, Hc.
    + simpl. destruct (c =? semicolon)%N; simpl; now rewrite E, ?Hc.
  - rewrite rstrip_cons_ne by congruence.
    simpl split. destruct (c =? semicolon)%N.
    + rewrite on_last_cons by apply split_nonempty. now rewrite E, IH.
    + rewrite E, IH.
      destruct (split semicolon s) as [|seg [|y rest]] eqn:Es.
      * now destruct (split_nonempty semicolon s).
      * apply split_single in Es. subst seg. simpl. now rewrite E.
      * reflexivity.
Qed.

Lemma got_on_head (f : str -> str) (l : list str) :
  (forall x, strip (f x) = strip x) ->
  map strip (filter kept (on_head f l)) = map strip (filter kept l).
Proof.
  intros Hf. destruct l as [|x l]; [reflexivity|].
  simpl. unfold kept. rewrite Hf. destruct (truthy (strip x)); simpl;
    now rewrite ?Hf.
Qed.

Lemma got_on_last (g : str -> str) (l : list str) :
  (forall x, strip (g x) = strip x) ->
  map strip (filter kept (on_last g l)) = map strip (filter kept l).
Proof.
  intros Hg. induction l as [|x [|y l] IH]; [reflexivity| |].
  - simpl. unfold kept. rewrite Hg. destruct (truthy (strip x)); simpl;
      now rewrite ?Hg.
  - rewrite on_last_cons by discriminate.
    change (filter kept (x :: on_last g (y :: l)))
      with (if kept x then x :: filter kept (on_last g (y :: l))
            else filter kept (on_last g (y :: l))).
    change (filter kept (x :: y :: l))
      with (if kept x then x :: filter kept (y :: l)
            else filter kept (y :: l)).
    destruct (kept x); [rewrite !map_cons; f_equal|]; exact IH.
Qed.

(** The strip of the whole answer changes nothing: the segments are
    stripped one by one anyway. *)
Lemma check_textio_got_segments (ans : str) :
  check_textio_got ans = map strip (filter kept (split semicolon ans)).
Proof.
  change (check_textio_got ans)
    with (map strip (filter kept (split semicolon (rstrip (lstrip ans))))).
  rewrite split_rstrip, (got_on_last _ _ strip_rstrip).
  rewrite split_lstrip. apply got_on_head, strip_lstrip.
Qed.

Lemma got_app (a b : str) :
  check_textio_got (a ++ semicolon :: b)
  = check_textio_got a ++ check_textio_got b.
Proof.
  rewrite !check_textio_got_segments, split_app, filter_app, map_app.
  reflexivity.
Qed.

Lemma got_blank (w : str) : blank w -> check_textio_got w = [].
Proof.
  intros Hw. rewrite check_textio_got_segments, (split_blank w Hw).
  simpl. unfold kept. now rewrite (strip_blank w Hw).
Qed.

Lemma got_kept (ans x : str) : In x (check_textio_got ans) -> x <> [].
Proof.
  rewrite check_textio_got_segments. intros H.
  apply in_map_iff in H as (y & <- & Hy).
  apply filter_In in Hy as [_ Hy]. unfold kept in Hy.
  destruct (strip y); [discriminate | congruence].
Qed.

Lemma check_textio_by_got (exp : list str) (a b : str) :
  check_textio_got a = check_textio_got b ->
  check_textio exp a = check_textio exp b.
Proof. unfold check_textio. now intros ->. Qed.

(** ** The multi-result textual checker *)

(** C8. With the expected sequence ["False", "True"] the answer
    "False;True" passes, "False ; True" passes too, since every segment is
    stripped before the comparison, and "True;False" fails: the order
    counts. *)
Theorem check_textio_False_True :
  check_textio [u "False"; u "True"] (u "False;True") = (true, u "Верно!")
  /\ check_textio [u "False"; u "True"] (u "False ; True")
     = (true, u "Верно!")
  /\ check_textio [u "False"; u "True"] (u "True;False")
     = (false, u "Ожидалось: False; True").
Proof. repeat split; vm_compute; reflexivity. Qed.

(** C10. Segments that are empty after stripping are dropped before the
    comparison. An answer passes exactly when its segments, stripped and
    without the empty ones, are the stripped expected lines, in order; the
    verdict is then "Верно!", and otherwise the failure that shows the
    expected lines. So a separator in front, at the end or repeated (with
    or without blanks around it) leaves the compared sequence, hence the
    verdict against any expected sequence, unchanged; the sequence that is
    compared has no empty member; "False;;True;" passes against
    ["False", "True"]. *)
Theorem check_textio_drops_empty_segments
  (exp : list str) (a b w : str) (Hw : blank w) :
  (forall ans,
      fst (check_textio exp ans) = true
      <-> map strip (filter (fun x => truthy (strip x))
                            (split semicolon ans))
          = map strip exp)
  /\ (forall ans,
        check_textio exp ans
        = if fst (check_textio exp ans) then (true, u "Верно!")
          else (false, u "Ожидалось: " ++ join (u "; ") (map strip exp)))
  /\ check_textio exp (w ++ u ";" ++ a) = check_textio exp a
  /\ check_textio exp (a ++ u ";" ++ w) = check_textio exp a
  /\ check_textio exp (a ++ u ";" ++ w ++ u ";" ++ b)
     = check_textio exp (a ++ u ";" ++ b)
  /\ (forall x, In x (check_textio_got a) -> x <> [])
  /\ check_textio [u "False"; u "True"] (u "False;;True;")
     = (true, u "Верно!").
Proof.
  split.
  { intros ans. unfold check_textio. cbn [fst].
    rewrite list_str_eqb_eq, check_textio_got_segments. reflexivity. }
  split.
  { intros ans. unfold check_textio. cbn [fst].
    destruct (list_str_eqb (check_textio_got ans) (map strip exp));
      reflexivity. }
  change (u ";") with [semicolon]. simpl app.
  repeat split.
  - apply check_textio_by_got. now rewrite got_app, (got_blank w Hw).
  - apply check_textio_by_got.
    now rewrite got_app, (got_blank w Hw), app_nil_r.
  - apply check_textio_by_got. now rewrite !got_app, (got_blank w Hw).
  - intros x. apply got_kept.
Qed.

Lemma check_textio_drops_empty_segments_witness :
  blank (u " ")
  /\ check_textio [u "False"; u "True"] (u "False; ;True")
     = check_textio [u "False"; u "True"] (u "False;True")
  /\ (fst (check_textio [u "False"; u "True"] (u "False; ;True")) = true
      <-> map strip (filter (fun x => truthy (strip x))
                            (split semicolon (u "False; ;True")))
          = map strip [u "False"; u "True"]).
Proof.
  assert (Hw : blank (u " ")) by (repeat constructor).
  destruct (check_textio_drops_empty_segments
              [u "False"; u "True"] (u "False") (u "True") (u " ") Hw)
    as (Hiff & _ & _ & _ & Hmid & _).
  split; [exact Hw|]. split; [exact Hmid | apply Hiff].
Defined.

(** ** The validator *)

Lemma size_pos (n : node) : 1 <= size n.
Proof. destruct n; simpl; lia. Qed.

Lemma total_size_app (a b : list node) :
  total_size (a ++ b) = total_size a + total_size b.
Proof. unfold total_size. now rewrite map_app, list_sum_app. Qed.

Lemma size_children (n : node) :
  size n = S (total_size (iter_child_nodes n)).
Proof.
  destruct n; simpl; unfold total_size; simpl.
  - rewrite map_app, list_sum_app. lia.
  - lia.
  - reflexivity.
Qed.

(** With fuel for every node in the queue and below it, the loop yields
    every descendant of every node of the queue. *)
Lemma walk_loop_complete (fuel : nat) :
  forall (todo : list node) (t d : node),
    total_size todo <= fuel ->
    In t todo -> descendant d t -> In d (walk_loop fuel todo).
Proof.
  induction fuel as [|fuel IH]; intros todo t d Hfuel Hin Hd.
  - destruct todo as [|n rest]; [destruct Hin|].
    unfold total_size in Hfuel. simpl in Hfuel.
    pose proof (size_pos n). lia.
  - destruct todo as [|n rest]; [destruct Hin|].
    simpl.
    assert (Hfuel' : total_size (rest ++ iter_child_nodes n) <= fuel).
    { rewrite total_size_app. unfold total_size in Hfuel |- *.
      simpl in Hfuel. rewrite size_children in Hfuel.
      unfold total_size in Hfuel. lia. }
    destruct Hin as [<- | Hin].
    + destruct Hd as [|t c Hc Hd]; [now left|].
      right. apply (IH _ c d Hfuel'); [|exact Hd].
      apply in_or_app. now right.
    + right. apply (IH _ t d Hfuel'); [|exact Hd].
      apply in_or_app. now left.
Qed.

Lemma walk_complete (tree d : node) : descendant d tree -> In d (walk tree).
Proof.
  intros Hd. unfold walk.
  apply (walk_loop_complete (size tree) [tree] tree d); [|now left|exact Hd].
  unfold total_size. simpl. lia.
Qed.

Lemma walk_root (tree : node) :
  exists rest, walk tree = tree :: rest.
Proof.
  unfold walk. pose proof (size_pos tree).
  destruct (size tree) as [|f]; [lia|]. simpl. eauto.
Qed.

Lemma validate_node_ValueError (n : node) (e : exc) :
  validate_node n = Raise e -> exists msg, e = ValueError msg.
Proof.
  unfold validate_node.
  destruct (negb (ALLOWED_NODES n)); [intros [= <-]; eauto|].
  destruct n as [func args kws | id ctx | c cs].
  - destruct func as [| id ctx |];
      try (intros [= <-]; eauto).
    destruct (negb (mem_str id ALLOWED_CALLS)); [intros [= <-]; eauto|].
    discriminate.
  - destruct (negb (mem_str id ALLOWED_NAMES)); [intros [= <-]; eauto|].
    discriminate.
  - discriminate.
Qed.

Lemma for_each_raises (body : node -> result unit) (nodes : list node)
  (n : node) (e : exc) :
  In n nodes -> body n = Raise e ->
  exists n' e', In n' nodes /\ body n' = Raise e'
                /\ for_each body nodes = Raise e'.
Proof.
  induction nodes as [|m nodes IH]; intros Hin Hn; [destruct Hin|].
  simpl. destruct (body m) as [[]|e'] eqn:Em.
  - destruct Hin as [-> | Hin]; [congruence|].
    destruct (IH Hin Hn) as (n' & e'' & H1 & H2 & H3).
    exists n', e''. split; [now right | now split].
  - exists m, e'. split; [now left | now split].
Qed.

Lemma for_each_ok (body : node -> result unit) (nodes : list node) :
  for_each body nodes = Ok tt -> forall n, In n nodes -> body n = Ok tt.
Proof.
  induction nodes as [|m nodes IH]; intros H n Hin; [destruct Hin|].
  simpl in H. destruct (body m) as [[]|e] eqn:Em; [|discriminate].
  destruct Hin as [<- | Hin]; auto.
Qed.

(** Whatever raises in the validator is a [ValueError]. *)
Lemma validate_ast_ValueError (tree : node) (e : exc) :
  _validate_ast tree = Raise e -> exists msg, e = ValueError msg.
Proof.
  unfold _validate_ast. generalize (walk tree) as nodes.
  induction nodes as [|m nodes IH]; simpl; [discriminate|].
  destruct (validate_node m) as [[]|e'] eqn:Em; [exact IH|].
  intros [= <-]. now apply (validate_node_ValueError m).
Qed.

(** A tree is accepted only if every node in it passes the check. *)
Lemma validate_ast_ok_all (tree d : node) :
  _validate_ast tree = Ok tt -> descendant d tree -> validate_node d = Ok tt.
Proof.
  intros H Hd. apply (for_each_ok validate_node (walk tree) H).
  now apply walk_complete.
Qed.

Lemma validate_ast_rejects (tree d : node) (e : exc) :
  descendant d tree -> validate_node d = Raise e ->
  exists msg, _validate_ast tree = Raise (ValueError msg).
Proof.
  intros Hd He. apply walk_complete in Hd.
  destruct (for_each_raises validate_node (walk tree) d e Hd He)
    as (n' & e' & _ & Hn' & H).
  destruct (validate_node_ValueError n' e' Hn') as [msg ->].
  now exists msg.
Qed.

(** The root of what [ast.parse(expr, mode='eval')] returns is rejected:
    [ALLOWED_NODES] has [ast.Expr], the expression statement, and not
    [ast.Expression]. *)
Lemma validate_ast_Expression (body : node) :
  _validate_ast (Node ast_Expression [body])
  = Raise (ValueError (u "Недопустимый синтаксический элемент: Expression")).
Proof.
  unfold _validate_ast.
  destruct (walk_root (Node ast_Expression [body])) as [rest ->].
  reflexivity.
Qed.

Lemma validate_node_offending_call (n : node) :
  offending_call n -> exists e, validate_node n = Raise e.
Proof.
  destruct n as [func args kws | |]; simpl; try contradiction.
  unfold validate_node. simpl.
  destruct func as [| id ctx |]; intros H; eauto.
  rewrite H. simpl. eauto.
Qed.

(** C4. A tree with a call whose callee is not a bare name, or whose bare
    callee name is outside the permitted callables, is rejected by the
    validator, at whatever depth the call sits: the walk reaches every
    node. *)
Theorem validate_ast_rejects_offending_call (tree call : node)
  (Hin : descendant call tree) (Hcall : offending_call call) :
  exists msg, _validate_ast tree = Raise (ValueError msg).
Proof.
  destruct (validate_node_offending_call call Hcall) as [e He].
  exact (validate_ast_rejects tree call e Hin He).
Qed.

Lemma validate_ast_rejects_offending_call_witness :
  exists msg,
    _validate_ast
      (CPython.BinOp
         (CPython.Constant (VInt 1)) ast_Add
         (Call (Name (u "len") CPython.Load)
               [Call (CPython.Attribute (Name (u "a") CPython.Load)
                                        (u "copy") CPython.Load) [] []]
               []))
    = Raise (ValueError msg).
Proof.
  apply (validate_ast_rejects_offending_call
           _ (Call (CPython.Attribute (Name (u "a") CPython.Load)
                                      (u "copy") CPython.Load) [] [])).
  - eapply desc_child; [right; right; left; reflexivity|].
    eapply desc_child; [right; left; reflexivity|].
    apply desc_self.
  - exact I.
Defined.

(** The same for a bare callee name that is not permitted, [eval], under
    a permitted call. *)
Example validate_ast_rejects_eval_in_len :
  _validate_ast
    (Call (Name (u "len") CPython.Load)
          [Call (Name (u "eval") CPython.Load)
                [CPython.Constant (VStr (u "1"))] []] [])
  = Raise (ValueError (u "Недопустимый вызов: eval()")).
Proof. vm_compute. reflexivity. Qed.

(** The validator is not void: with a permitted call of a permitted
    name inside, the expression [len(a) + 2 ** 10] is accepted. *)
Example validate_ast_accepts_len :
  exists body,
    parse_eval CPython.cpy (u "len(a) + 2 ** 10") = inl body
    /\ _validate_ast body = Ok tt.
Proof. eexists. split; vm_compute; reflexivity. Qed.

(** ** [safe_eval] *)

(** The three ways [safe_eval] ends: the blank input, the parser's
    exception, the validator's rejection of the [Expression] root.  The
    heap is as before in each. *)
Lemma safe_eval_outcome (R : runtime) (expr : str) (env : option dict)
  (h : heap) :
  (strip expr = []
   /\ safe_eval R expr env h = (Raise (ValueError (u "Пустое выражение")), h))
  \/ (exists cls msg,
        strip expr <> []
        /\ parse_eval R (strip expr) = inr (cls, msg)
        /\ safe_eval R expr env h = (Raise (Exc cls msg), h))
  \/ (exists body,
        strip expr <> []
        /\ parse_eval R (strip expr) = inl body
        /\ safe_eval R expr env h
           = (Raise (ValueError
                       (u "Недопустимый синтаксический элемент: Expression")),
              h)).
Proof.
  unfold safe_eval, ast_parse_eval.
  destruct (strip expr) as [|c s] eqn:Es; [now left|].
  right. simpl negb. cbv iota.
  destruct (parse_eval R (c :: s)) as [body | [cls msg]] eqn:Ep.
  - right. exists body. rewrite validate_ast_Expression.
    repeat split; congruence.
  - left. exists cls, msg. repeat split; congruence.
Qed.

Lemma safe_eval_raises (R : runtime) (expr : str) (env : option dict)
  (h : heap) :
  exists cls msg, safe_eval R expr env h = (Raise (Exc cls msg), h).
Proof.
  destruct (safe_eval_outcome R expr env h)
    as [[_ H] | [(cls & msg & _ & _ & H) | (body & _ & _ & H)]];
    rewrite H; unfold ValueError; eauto.
Qed.

(** C5. A text that is empty or all whitespace is refused with the error
    "Пустое выражение" ("empty expression") whatever the parser would do
    with it: the parser is not asked. *)
Theorem safe_eval_blank (R : runtime) (expr : str) (env : option dict)
  (h : heap) (Hblank : blank expr) :
  safe_eval R expr env h = (Raise (ValueError (u "Пустое выражение")), h).
Proof.
  unfold safe_eval. rewrite (strip_blank expr Hblank). reflexivity.
Qed.

Lemma safe_eval_blank_witness :
  blank (u "  	 ")
  /\ safe_eval CPython.cpy (u "  	 ") None []
     = (Raise (ValueError (u "Пустое выражение")), []).
Proof.
  assert (H : blank (u "  	 ")) by (repeat constructor).
  split; [exact H|].
  exact (safe_eval_blank CPython.cpy (u "  	 ") None [] H).
Defined.

(** C9. Evaluating a snippet against an environment leaves the heap as it
    was, and evaluating it again, in the heap the first evaluation left,
    gives the same result; so does checking an answer twice with
    [check_eval_equals]. *)
Theorem safe_eval_repeatable (R : runtime) (expr : str) (env : option dict)
  (genv : dict) (expected : value) (h : heap) :
  let first := safe_eval R expr env h in
  let verdict1 := check_eval_equals R genv expected expr h in
  snd first = h
  /\ safe_eval R expr env (snd first) = first
  /\ snd verdict1 = h
  /\ check_eval_equals R genv expected expr (snd verdict1) = verdict1.
Proof.
  cbv zeta.
  destruct (safe_eval_raises R expr env h) as (cls & msg & E).
  destruct (safe_eval_raises R expr (Some genv) h) as (cls' & msg' & E').
  unfold check_eval_equals. rewrite E, E'. simpl. rewrite E, E'.
  repeat split.
Qed.

(** ** The environment check *)







(** ** Semantic equality and predicate checkers *)

(** No answer passes [check_eval_equals] or [check_eval_predicate]: the
    validator stops every text the parser accepts. *)
Lemma check_eval_equals_never_passes (R : runtime) (env : dict)
  (expected : value) (ans : str) (h : heap) :
  exists msg,
    check_eval_equals R env expected ans h
    = (Ok (false, u "Ошибка разбора/вычисления: " ++ msg), h).
Proof.
  unfold check_eval_equals.
  destruct (safe_eval_raises R ans (Some env) h) as (cls & msg & ->).
  now exists msg.
Qed.

Lemma check_eval_predicate_never_passes (R : runtime) (env : dict)
  (predicate : value -> M bool) (expected_str ans : str) (h : heap) :
  exists msg,
    check_eval_predicate R env predicate expected_str ans h
    = (Ok (false, u "Ошибка: " ++ msg), h).
Proof.
  unfold check_eval_predicate.
  destruct (safe_eval_raises R ans (Some env) h) as (cls & msg & ->).
  now exists msg.
Qed.

(** C6, on the program. With an empty environment and 1024 expected, the
    answers "2 ** 10" and "2 ** 9" both fail, with the validator's message
    about the [Expression] node; neither verdict shows a computed value.
    The expression under the root passes every check of the validator and
    evaluates to 1024. *)
Theorem check_eval_equals_power_rejected :
  check_eval_equals CPython.cpy [] (VInt 1024) (u "2 ** 10") []
  = (Ok (false,
         u "Ошибка разбора/вычисления: Недопустимый синтаксический элемент: Expression"),
     [])
  /\ check_eval_equals CPython.cpy [] (VInt 1024) (u "2 ** 9") []
     = (Ok (false,
            u "Ошибка разбора/вычисления: Недопустимый синтаксический элемент: Expression"),
        [])
  /\ exists body,
       parse_eval CPython.cpy (u "2 ** 10") = inl body
       /\ _validate_ast body = Ok tt
       /\ eval_code CPython.cpy (Node ast_Expression [body])
                    ALLOWED_BUILTINS [] []
          = (Ok (VInt 1024), []).
Proof.
  split; [vm_compute; reflexivity|]. split; [vm_compute; reflexivity|].
  eexists. split; [vm_compute; reflexivity|].
  split; vm_compute; reflexivity.
Qed.

(** C3, on the program. The answers "a[:]", "a.copy()" and "a" all fail
    the [list_copy] item, with the validator's message about the
    [Expression] node. The predicate itself accepts a fresh equal list, and
    accepts the list [a] as well: it tests [v is not None]. *)
Theorem list_copy_checker_rejects_copies :
  list_copy_checker CPython.cpy 0 (u "a[:]") tasks_heap
  = (Ok (false,
         u "Ошибка: Недопустимый синтаксический элемент: Expression"),
     tasks_heap)
  /\ list_copy_checker CPython.cpy 0 (u "a.copy()") tasks_heap
     = (Ok (false,
            u "Ошибка: Недопустимый синтаксический элемент: Expression"),
        tasks_heap)
  /\ list_copy_checker CPython.cpy 0 (u "a") tasks_heap
     = (Ok (false,
            u "Ошибка: Недопустимый синтаксический элемент: Expression"),
        tasks_heap)
  /\ fst (list_copy_predicate CPython.cpy (VRef 1)
            (tasks_heap ++ [OList [VInt 1; VInt 2; VInt 3]]))
     = Ok true
  /\ fst (list_copy_predicate CPython.cpy (VRef 0) tasks_heap) = Ok true.
Proof. repeat split; vm_compute; reflexivity. Qed.

(** Under the root, "a[:]" passes the validator; "a.copy()" does not: the
    callee of its call is an attribute. *)
Example list_copy_bodies :
  (exists body,
     parse_eval CPython.cpy (u "a[:]") = inl body
     /\ _validate_ast body = Ok tt)
  /\ (exists body,
        parse_eval CPython.cpy (u "a.copy()") = inl body
        /\ _validate_ast body
           = Raise (ValueError
                      (u "Разрешены только простые вызовы встроенных функций"))).
Proof.
  split; eexists; (split; [vm_compute; reflexivity|]);
    vm_compute; reflexivity.
Qed.

(** ** Mutation-effect checkers *)

Lemma fresh_location (h : heap) : nth_error h (List.length h) = None.
Proof. apply nth_error_None. lia. Qed.

(** C1, as the program has it. A mutation-effect checker hands the answer
    to [exec] as it is: nothing is validated, and the hypotheses below ask
    nothing of the answer but that [exec] returns. The answer runs
    against a new object with the initial contents, bound to the name, at a
    location no earlier object has. The flag is the value equality of that
    object, as [exec] left it, with the expected contents (for
    [list_remove_evens], of a list object only); the flag the checker
    returns is the one of its first run. *)
Theorem mutation_checker_runs_answer_unvalidated (R : runtime)
  (ans ans_ba : str) (h h1 h2 : heap)
  (Hnums : exec R ans [] [(u "nums", VRef (List.length h))]
                (h ++ [OList (map VInt [1; 2; 3; 4; 5; 6]%Z)])
           = (Ok tt, h1))
  (Hba : exec R ans_ba [] [(u "ba", VRef (List.length h))]
              (h ++ [OByteArray [97; 98; 99]%N])
         = (Ok tt, h2)) :
  nth_error h (List.length h) = None
  /\ fst (list_remove_evens_res R ans h)
     = Ok (is_list h1 (VRef (List.length h))
           && py_eq R (h1 ++ [OList (map VInt [1; 3; 5]%Z)])
                    (VRef (List.length h)) (VRef (List.length h1)))
  /\ fst (bytearray_modify_res R ans_ba h)
     = Ok (py_eq R (h2 ++ [OByteArray [65; 98; 99]%N])
                 (VRef (List.length h)) (VRef (List.length h2)))
  /\ (forall v h', list_remove_evens_checker R ans h = (Ok v, h') ->
                   fst (list_remove_evens_res R ans h) = Ok (fst v))
  /\ (forall v h', bytearray_modify_checker R ans_ba h = (Ok v, h') ->
                   fst (bytearray_modify_res R ans_ba h) = Ok (fst v)).
Proof.
  split; [apply fresh_location|].
  split.
  { unfold list_remove_evens_res, list_literal, bind, alloc,
      isinstance_list, value_eq, ret.
    rewrite Hnums.
    destruct (is_list h1 (VRef (List.length h))); reflexivity. }
  split.
  { unfold bytearray_modify_res, bind, alloc, value_eq, ret.
    rewrite Hba. reflexivity. }
  split.
  - intros v h'. unfold list_remove_evens_checker, bind, ret.
    destruct (list_remove_evens_res R ans h) as [[b|e] h3]; [|discriminate].
    destruct (list_remove_evens_res R ans h3) as [[b'|e] h4];
      [|discriminate].
    intros [= <- _]. reflexivity.
  - intros v h'. unfold bytearray_modify_checker, bind, ret.
    destruct (bytearray_modify_res R ans_ba h) as [[b|e] h3];
      [|discriminate].
    destruct (bytearray_modify_res R ans_ba h3) as [[b'|e] h4];
      [|discriminate].
    intros [= <- _]. reflexivity.
Qed.

Lemma mutation_checker_runs_answer_unvalidated_witness :
  exec CPython.cpy (u "nums[:] = [1, 3, 5]") []
       [(u "nums", VRef 0)] [OList (map VInt [1; 2; 3; 4; 5; 6]%Z)]
  = (Ok tt, [OList (map VInt [1; 3; 5]%Z); OList (map VInt [1; 3; 5]%Z)])
  /\ exec CPython.cpy (u "ba[0] = 65") []
          [(u "ba", VRef 0)] [OByteArray [97; 98; 99]%N]
     = (Ok tt, [OByteArray [65; 98; 99]%N])
  /\ fst (list_remove_evens_res CPython.cpy (u "nums[:] = [1, 3, 5]") [])
     = Ok true
  /\ fst (bytearray_modify_res CPython.cpy (u "ba[0] = 65") []) = Ok true.
Proof.
  assert (Hnums :
            exec CPython.cpy (u "nums[:] = [1, 3, 5]") []
                 [(u "nums", VRef (List.length (@nil object)))]
                 ([] ++ [OList (map VInt [1; 2; 3; 4; 5; 6]%Z)])
            = (Ok tt, [OList (map VInt [1; 3; 5]%Z);
                       OList (map VInt [1; 3; 5]%Z)]))
    by (vm_compute; reflexivity).
  assert (Hba :
            exec CPython.cpy (u "ba[0] = 65") []
                 [(u "ba", VRef (List.length (@nil object)))]
                 ([] ++ [OByteArray [97; 98; 99]%N])
            = (Ok tt, [OByteArray [65; 98; 99]%N]))
    by (vm_compute; reflexivity).
  split; [exact Hnums|]. split; [exact Hba|].
  destruct (mutation_checker_runs_answer_unvalidated
              CPython.cpy (u "nums[:] = [1, 3, 5]") (u "ba[0] = 65")
              [] _ _ Hnums Hba) as (_ & H1 & H2 & _).
  split; [exact H1 | exact H2].
Defined.

(** C1, as stated, fails: no validation comes before the execution. The
    answers below are parsed into trees that the validator rejects (an
    assignment is not in [ALLOWED_NODES]); the checkers execute them all
    the same, and pass them. *)
Lemma mutation_checker_executes_rejected_answer :
  (exists tree,
     ast_parse_exec CPython.cpy (u "nums[:] = [1, 3, 5]") = Ok tree
     /\ _validate_ast tree
        = Raise (ValueError
                   (u "Недопустимый синтаксический элемент: Assign"))
     /\ fst (list_remove_evens_checker
               CPython.cpy (u "nums[:] = [1, 3, 5]") [])
        = Ok (true, u "Верно!"))
  /\ (exists tree,
        ast_parse_exec CPython.cpy (u "ba[0] = 65") = Ok tree
        /\ _validate_ast tree
           = Raise (ValueError
                      (u "Недопустимый синтаксический элемент: Assign"))
        /\ fst (bytearray_modify_checker CPython.cpy (u "ba[0] = 65") [])
           = Ok (true, u "Верно!")).
Proof.
  split; eexists; (split; [vm_compute; reflexivity|]);
    split; vm_compute; reflexivity.
Qed.

(** What is compared is the object, not the name: an answer that binds
    the name to a new list with the expected contents fails. *)
Example list_remove_evens_rebinding_fails :
  fst (list_remove_evens_checker CPython.cpy (u "nums = [1, 3, 5]") [])
  = Ok (false, u "Неверно. Ожидалось, что nums станет [1,3,5]").
Proof. vm_compute. reflexivity. Qed.

(** ** Exceptions in the checkers *)




(** ** More on the validator *)

Lemma walk_loop_sound (fuel : nat) :
  forall (todo : list node) (d : node),
    In d (walk_loop fuel todo) -> exists t, In t todo /\ descendant d t.
Proof.
  induction fuel as [|fuel IH]; intros todo d H; [destruct H|].
  destruct todo as [|n rest]; [destruct H|].
  simpl in H. destruct H as [<- | H].
  - exists n. split; [now left | apply desc_self].
  - destruct (IH _ d H) as (t & Ht & Hd).
    apply in_app_or in Ht as [Ht | Ht].
    + exists t. split; [now right | exact Hd].
    + exists n. split; [now left|]. now apply (desc_child d n t).
Qed.

Lemma walk_sound (tree d : node) : In d (walk tree) -> descendant d tree.
Proof.
  intros H. destruct (walk_loop_sound (size tree) [tree] d H)
    as (t & [<- | []] & Hd).
  exact Hd.
Qed.

Lemma for_each_all_ok (body : node -> result unit) (nodes : list node) :
  (forall n, In n nodes -> body n = Ok tt) -> for_each body nodes = Ok tt.
Proof.
  induction nodes as [|m nodes IH]; intros H; [reflexivity|].
  simpl. rewrite (H m (or_introl eq_refl)). apply IH.
  intros n Hn. apply H. now right.
Qed.

Lemma for_each_raise_origin (body : node -> result unit)
  (nodes : list node) (e : exc) :
  for_each body nodes = Raise e -> exists n, In n nodes /\ body n = Raise e.
Proof.
  induction nodes as [|m nodes IH]; simpl; [discriminate|].
  destruct (body m) as [[]|e'] eqn:Em.
  - intros H. destruct (IH H) as (n & Hn & He). exists n. split; auto.
  - intros [= <-]. exists m. split; auto.
Qed.

Lemma descendant_trans (a b c : node) :
  descendant a b -> descendant b c -> descendant a c.
Proof.
  intros Hab Hbc. induction Hbc as [|t ch Hin _ IH]; [exact Hab|].
  now apply (desc_child a t ch).
Qed.

Lemma descendant_inv (d t : node) :
  descendant d t ->
  d = t \/ exists c, In c (iter_child_nodes t) /\ descendant d c.
Proof. intros [|t' c Hc Hd]; [now left | right; eauto]. Qed.

Lemma validate_ast_ok_iff (tree : node) :
  _validate_ast tree = Ok tt
  <-> forall d, descendant d tree -> validate_node d = Ok tt.
Proof.
  split.
  - intros H d Hd. now apply (validate_ast_ok_all tree d).
  - intros H. apply for_each_all_ok. intros n Hn.
    apply H. now apply walk_sound.
Qed.

(** The validator accepts a tree exactly when every node in it passes
    the check of the loop body: the breadth-first walk misses no node and
    invents none. *)
Theorem validate_ast_accepts_iff (tree : node) :
  _validate_ast tree = Ok tt
  <-> forall d, descendant d tree -> validate_node d = Ok tt.
Proof. apply validate_ast_ok_iff. Qed.

(** The validator works like a recursive check: a tree is accepted exactly
    when its root passes and every subtree under the root is accepted. *)
Theorem validate_ast_compositional (tree : node) :
  _validate_ast tree = Ok tt
  <-> validate_node tree = Ok tt
      /\ forall c, In c (iter_child_nodes tree) -> _validate_ast c = Ok tt.
Proof.
  rewrite validate_ast_ok_iff. split.
  - intros H. split; [apply H, desc_self|].
    intros c Hc. apply validate_ast_ok_iff. intros d Hd.
    apply H. now apply (desc_child d tree c).
  - intros [Hroot Hch] d Hd.
    destruct (descendant_inv d tree Hd) as [-> | (c & Hc & Hdc)];
      [exact Hroot|].
    exact (proj1 (validate_ast_ok_iff c) (Hch c Hc) d Hdc).
Qed.

(** The error of a rejected tree is the error of one of its nodes, and a
    root that fails its own check decides the error: nothing below it is
    looked at first. *)
Theorem validate_ast_error_origin (tree : node) (e : exc) :
  (_validate_ast tree = Raise e ->
   exists d, descendant d tree /\ validate_node d = Raise e)
  /\ (validate_node tree = Raise e -> _validate_ast tree = Raise e).
Proof.
  split.
  - intros H. destruct (for_each_raise_origin validate_node (walk tree) e H)
      as (n & Hn & He).
    exists n. split; [now apply walk_sound | exact He].
  - intros H. unfold _validate_ast.
    destruct (walk_root tree) as [rest ->]. simpl. now rewrite H.
Qed.

Lemma validate_ast_error_origin_witness :
  _validate_ast (Node ast_Expression [CPython.Constant (VInt 1)])
  = Raise (ValueError (u "Недопустимый синтаксический элемент: Expression")).
Proof.
  apply (validate_ast_error_origin
           (Node ast_Expression [CPython.Constant (VInt 1)])).
  reflexivity.
Defined.

(** A reference to a name outside [ALLOWED_NAMES] makes the validator
    reject the tree, wherever the reference is. *)
Theorem validate_ast_rejects_offending_name (tree ref : node)
  (Hin : descendant ref tree) (Hname : offending_name ref) :
  exists msg, _validate_ast tree = Raise (ValueError msg).
Proof.
  apply (validate_ast_rejects tree ref
           (ValueError (u "Недопустимое имя: "
                          ++ match ref with Name id _ => id | _ => [] end)));
    [exact Hin|].
  destruct ref as [| id ctx |]; try contradiction.
  change (mem_str id ALLOWED_NAMES = false) in Hname.
  unfold validate_node. cbn [ALLOWED_NODES negb]. now rewrite Hname.
Qed.

Lemma validate_ast_rejects_offending_name_witness :
  exists msg,
    _validate_ast
      (CPython.BinOp (CPython.Constant (VInt 1)) ast_Add
         (CPython.Subscript (Name (u "os") CPython.Load)
                            (CPython.Constant (VInt 0)) CPython.Load))
    = Raise (ValueError msg).
Proof.
  apply (validate_ast_rejects_offending_name
           _ (Name (u "os") CPython.Load)).
  - eapply desc_child; [right; right; left; reflexivity|].
    eapply desc_child; [left; reflexivity|].
    apply desc_self.
  - reflexivity.
Defined.

(** A node of a class outside [ALLOWED_NODES] (an attribute access, a
    lambda, a comprehension, an assignment, ...) makes the validator reject
    the tree, wherever the node is. *)
Theorem validate_ast_rejects_disallowed_class (tree d : node)
  (Hin : descendant d tree) (Hclass : ALLOWED_NODES d = false) :
  exists msg, _validate_ast tree = Raise (ValueError msg).
Proof.
  apply (validate_ast_rejects tree d
           (ValueError (u "Недопустимый синтаксический элемент: "
                          ++ node_class_name d))); [exact Hin|].
  unfold validate_node. now rewrite Hclass.
Qed.

Lemma validate_ast_rejects_disallowed_class_witness :
  exists msg,
    _validate_ast
      (Call (Name (u "len") CPython.Load)
            [CPython.Attribute (Name (u "a") CPython.Load)
                               (u "__class__") CPython.Load] [])
    = Raise (ValueError msg).
Proof.
  apply (validate_ast_rejects_disallowed_class
           _ (CPython.Attribute (Name (u "a") CPython.Load)
                                (u "__class__") CPython.Load)).
  - eapply desc_child; [right; left; reflexivity|]. apply desc_self.
  - reflexivity.
Defined.

(** ** More on strings *)

Lemma lstrip_blank_app (w s : str) : blank w -> lstrip (w ++ s) = lstrip s.
Proof.
  induction 1 as [|c w Hc _ IH]; [reflexivity|].
  simpl. now rewrite Hc.
Qed.

Lemma rstrip_blank (w : str) : blank w -> rstrip w = [].
Proof.
  induction 1 as [|c w Hc _ IH]; [reflexivity|].
  simpl. now rewrite IH, Hc.
Qed.

Lemma rstrip_app_blank (s w : str) : blank w -> rstrip (s ++ w) = rstrip s.
Proof.
  intros Hw. induction s as [|c s IH]; simpl.
  - now apply rstrip_blank.
  - now rewrite IH.
Qed.

Lemma strip_padded (w1 s w2 : str) :
  blank w1 -> blank w2 -> strip (w1 ++ s ++ w2) = strip s.
Proof.
  intros H1 H2. unfold strip.
  rewrite (lstrip_blank_app w1 (s ++ w2) H1).
  rewrite <- !lstrip_rstrip. now rewrite (rstrip_app_blank s w2 H2).
Qed.

Lemma strip_idem (s : str) : strip (strip s) = strip s.
Proof.
  unfold strip. rewrite (lstrip_rstrip (lstrip s)).
  now rewrite lstrip_idem, rstrip_idem.
Qed.

Lemma lstrip_incl (c : N) (s : str) : In c (lstrip s) -> In c s.
Proof.
  induction s as [|d s IH]; simpl; [tauto|].
  destruct (isspace d); [right; auto | simpl; tauto].
Qed.

Lemma rstrip_incl (c : N) (s : str) : In c (rstrip s) -> In c s.
Proof.
  induction s as [|d s IH]; simpl; [tauto|].
  destruct (rstrip s) as [|x r].
  - destruct (isspace d); simpl; tauto.
  - simpl. intros [H | H]; [now left | right; apply IH; exact H].
Qed.

Lemma strip_incl (c : N) (s : str) : In c (strip s) -> In c s.
Proof. intros H. now apply lstrip_incl, rstrip_incl. Qed.

Lemma split_no_sep (sep : N) (s seg : str) :
  In seg (split sep s) -> ~ In sep seg.
Proof.
  revert seg. induction s as [|c s IH]; simpl; intros seg H.
  - destruct H as [<- | []]. tauto.
  - destruct (N.eqb_spec c sep) as [-> | Hne].
    + destruct H as [<- | H]; [tauto | now apply IH].
    + destruct (split sep s) as [|x rest] eqn:E.
      * destruct H as [<- | []]. simpl. intros [H | []]. congruence.
      * destruct H as [<- | H].
        -- simpl. intros [H | H]; [congruence|].
           apply (IH x); [now left | exact H].
        -- apply IH. now right.
Qed.

Lemma split_sep_free (sep : N) (s : str) :
  ~ In sep s -> split sep s = [s].
Proof.
  induction s as [|c s IH]; intros H; [reflexivity|].
  simpl. destruct (N.eqb_spec c sep) as [-> | Hne].
  - destruct H. now left.
  - rewrite IH; [reflexivity|]. intros Hin. apply H. now right.
Qed.

(** ** More on [safe_eval] *)

Lemma safe_eval_strip (R : runtime) (a b : str) (env : option dict) :
  strip a = strip b -> safe_eval R a env = safe_eval R b env.
Proof. intros H. unfold safe_eval. cbv zeta. rewrite H. reflexivity. Qed.

(** [safe_eval] never returns a value. Whatever the text, the environment
    and the runtime, it raises, with the heap as it was: for a blank text
    the error of the blank text, for a text the parser refuses the
    parser's exception, and for every text the parser accepts the
    validator's error about the [Expression] root. *)
Theorem safe_eval_never_returns (R : runtime) (expr : str)
  (env : option dict) (h : heap) :
  exists cls msg,
    safe_eval R expr env h = (Raise (Exc cls msg), h)
    /\ (strip expr = [] -> msg = u "Пустое выражение")
    /\ (forall c m, strip expr <> [] ->
                    parse_eval R (strip expr) = inr (c, m) ->
                    cls = c /\ msg = m)
    /\ (forall body, strip expr <> [] ->
                     parse_eval R (strip expr) = inl body ->
                     msg = u "Недопустимый синтаксический элемент: Expression").
Proof.
  destruct (safe_eval_outcome R expr env h)
    as [[Hs H] | [(cls & msg & Hs & Hp & H) | (body & Hs & Hp & H)]].
  - exists (u "ValueError"), (u "Пустое выражение").
    split; [exact H|]. split; [reflexivity|].
    split; intros; contradiction.
  - exists cls, msg. split; [exact H|].
    split; [intros; contradiction|]. split.
    + intros c m _ Hp'. rewrite Hp in Hp'. now injection Hp' as -> ->.
    + intros body _ Hp'. rewrite Hp in Hp'. discriminate Hp'.
  - exists (u "ValueError"),
      (u "Недопустимый синтаксический элемент: Expression").
    split; [exact H|]. split; [intros; contradiction|].
    split; [|reflexivity].
    intros c m _ Hp'. rewrite Hp in Hp'. discriminate Hp'.
Qed.

(** Whitespace around the text does not count: [safe_eval] gives the
    same result, in the same heap, with or without it. *)
Theorem safe_eval_ignores_padding (R : runtime) (w1 expr w2 : str)
  (env : option dict) (h : heap) (H1 : blank w1) (H2 : blank w2) :
  safe_eval R (w1 ++ expr ++ w2) env h = safe_eval R expr env h.
Proof.
  now rewrite (safe_eval_strip R (w1 ++ expr ++ w2) expr env
                 (strip_padded w1 expr w2 H1 H2)).
Qed.

Lemma safe_eval_ignores_padding_witness :
  safe_eval CPython.cpy (u " 	" ++ u "2 ** 10" ++ u "  ") None []
  = safe_eval CPython.cpy (u "2 ** 10") None [].
Proof.
  apply (safe_eval_ignores_padding CPython.cpy (u " 	") (u "2 ** 10")
           (u "  ") None []); repeat constructor.
Defined.

(** *** The globals of an evaluation *)

Lemma dict_get_set_same (k : str) (v : value) (d : dict) :
  dict_get k (dict_set k v d) = Some v.
Proof.
  induction d as [|[k' v'] d IH]; simpl.
  - now rewrite str_eqb_refl.
  - destruct (str_eqb k k') eqn:E; simpl; rewrite E; auto.
Qed.

Lemma dict_get_set_other (k k0 : str) (v : value) (d : dict) :
  k <> k0 -> dict_get k (dict_set k0 v d) = dict_get k d.
Proof.
  intros Hne. assert (E0 : str_eqb k k0 = false).
  { destruct (str_eqb k k0) eqn:E; [|reflexivity].
    apply str_eqb_eq in E. contradiction. }
  induction d as [|[k' v'] d IH]; simpl.
  - now rewrite E0.
  - destruct (str_eqb k0 k') eqn:E; simpl.
    + apply str_eqb_eq in E. subst k'. now rewrite E0.
    + destruct (str_eqb k k'); auto.
Qed.

Lemma dict_get_none (k : str) (d : dict) :
  ~ In k (map fst d) -> dict_get k d = None.
Proof.
  induction d as [|[k' v'] d IH]; simpl; intros H; [reflexivity|].
  destruct (str_eqb k k') eqn:E.
  - apply str_eqb_eq in E. destruct H. now left.
  - apply IH. tauto.
Qed.

Lemma dict_get_update (k : str) (e : dict) :
  NoDup (map fst e) ->
  forall d,
    dict_get k (dict_update d e)
    = match dict_get k e with
      | Some v => Some v
      | None => dict_get k d
      end.
Proof.
  unfold dict_update.
  induction e as [|[k0 v0] e IH]; intros Hnd d; [reflexivity|].
  simpl in Hnd. inversion Hnd as [|? ? Hk0 Hnd']; subst.
  simpl fold_left. rewrite (IH Hnd'). simpl dict_get at 3.
  destruct (str_eqb k k0) eqn:E.
  - apply str_eqb_eq in E. subst k0.
    now rewrite (dict_get_none k e Hk0), dict_get_set_same.
  - assert (k <> k0) by (intros ->; now rewrite str_eqb_refl in E).
    now rewrite dict_get_set_other.
Qed.

Lemma dict_set_keys (k0 : str) (v : value) (d : dict) (k : str) :
  In k (map fst (dict_set k0 v d)) -> k = k0 \/ In k (map fst d).
Proof.
  induction d as [|[k' v'] d IH]; simpl.
  - intros [<- | []]. now left.
  - destruct (str_eqb k0 k'); simpl; intros [H | H]; auto.
    destruct (IH H); auto.
Qed.

Lemma dict_update_keys (e d : dict) (k : str) :
  In k (map fst (dict_update d e)) ->
  In k (map fst d) \/ In k (map fst e).
Proof.
  unfold dict_update. revert d.
  induction e as [|[k0 v0] e IH]; intros d H; [now left|].
  simpl in H. destruct (IH _ H) as [H' | H'].
  - destruct (dict_set_keys k0 v0 d k H') as [-> | H'']; simpl; auto.
  - simpl. auto.
Qed.

Lemma check_env_names_ok (e : dict) :
  check_env_names e = Ok tt
  <-> forall k, In k (map fst e) -> mem_str k ALLOWED_NAMES = true.
Proof.
  induction e as [|[k0 v0] e IH]; cbn [check_env_names map fst In].
  - split; [intros _ k [] | reflexivity].
  - destruct (mem_str k0 ALLOWED_NAMES) eqn:E; cbn [negb].
    + rewrite IH. split.
      * intros H k [<- | Hk]; auto.
      * intros H k Hk. apply H. now right.
    + split; [discriminate|]. intros H.
      rewrite (H k0 (or_introl eq_refl)) in E. discriminate.
Qed.

Lemma ALLOWED_BUILTINS_names (k : str) :
  In k (map fst ALLOWED_BUILTINS) -> mem_str k ALLOWED_NAMES = true.
Proof.
  intros H. unfold ALLOWED_NAMES.
  generalize (map fst ALLOWED_BUILTINS) H. clear H. intros l H.
  induction l as [|x l IH]; [destruct H|].
  simpl. destruct H as [-> | H]; [now rewrite str_eqb_refl|].
  rewrite (IH H). apply orb_true_r.
Qed.

(** The globals an expression would be evaluated in. They are built
    exactly when every key of the environment is in [ALLOWED_NAMES]; then
    every name bound in them is in [ALLOWED_NAMES], a name of the
    environment has the value the environment gives it, even when it is
    the name of a built-in, and every other name is bound as in
    [ALLOWED_BUILTINS]. *)
Theorem safe_eval_globals_overlay (env : dict)
  (Hkeys : NoDup (map fst env)) :
  ((exists g, safe_eval_globals (Some env) = Ok g)
   <-> forall k, In k (map fst env) -> mem_str k ALLOWED_NAMES = true)
  /\ forall g,
       safe_eval_globals (Some env) = Ok g ->
       (forall k, In k (map fst g) -> mem_str k ALLOWED_NAMES = true)
       /\ (forall k,
             dict_get k g
             = match dict_get k env with
               | Some v => Some v
               | None => dict_get k ALLOWED_BUILTINS
               end).
Proof.
  assert (Hshape :
            safe_eval_globals (Some env)
            = match check_env_names env with
              | Ok _ => Ok (dict_update ALLOWED_BUILTINS env)
              | Raise x => Raise x
              end).
  { destruct env; reflexivity. }
  split.
  - rewrite <- check_env_names_ok, Hshape. split.
    + intros [g H]. destruct (check_env_names env) as [[]|e];
        [reflexivity | discriminate].
    + intros ->. eauto.
  - intros g H. rewrite Hshape in H.
    destruct (check_env_names env) as [[]|e] eqn:E; [|discriminate].
    injection H as <-. split.
    + intros k Hk. destruct (dict_update_keys env ALLOWED_BUILTINS k Hk).
      * now apply ALLOWED_BUILTINS_names.
      * now apply (proj1 (check_env_names_ok env) E).
    + intros k. now apply dict_get_update.
Qed.

Lemma safe_eval_globals_overlay_witness :
  exists g,
    safe_eval_globals (Some [(u "x", VInt 1); (u "len", VNone)]) = Ok g
    /\ dict_get (u "x") g = Some (VInt 1)
    /\ dict_get (u "len") g = Some VNone
    /\ dict_get (u "sum") g = Some (VBuiltin (u "sum")).
Proof.
  assert (Hkeys : NoDup (map fst [(u "x", VInt 1); (u "len", VNone)])).
  { repeat constructor; simpl; intuition discriminate. }
  destruct (safe_eval_globals_overlay
              [(u "x", VInt 1); (u "len", VNone)] Hkeys) as [Hex Hg].
  destruct (proj2 Hex) as [g E].
  { intros k [<- | [<- | []]]; reflexivity. }
  exists g. split; [exact E|].
  destruct (Hg g E) as [_ Hget]. rewrite !Hget.
  repeat split.
Defined.

(** ** More on the checkers *)

(** Neither [check_eval_equals] nor [check_eval_predicate] ever passes an
    answer: whatever the environment, the expected value or predicate, the
    answer and the runtime, the verdict is a failure with the error of
    [safe_eval] after the prefix, the heap is as it was, and the predicate
    is not applied. *)
Theorem check_eval_checkers_never_pass (R : runtime) (env : dict)
  (expected : value) (predicate : value -> M bool) (expected_str ans : str)
  (h : heap) :
  exists cls msg,
    safe_eval R ans (Some env) h = (Raise (Exc cls msg), h)
    /\ check_eval_equals R env expected ans h
       = (Ok (false, u "Ошибка разбора/вычисления: " ++ msg), h)
    /\ check_eval_predicate R env predicate expected_str ans h
       = (Ok (false, u "Ошибка: " ++ msg), h).
Proof.
  destruct (safe_eval_raises R ans (Some env) h) as (cls & msg & E).
  exists cls, msg. unfold check_eval_equals, check_eval_predicate.
  rewrite E. repeat split.
Qed.

(** [check_exact] compares the stripped answer with the stripped expected
    text: an answer passes exactly when the two are equal, whitespace
    around either changes nothing, and the message of a failure shows the
    stripped expected text. *)
Theorem check_exact_strips (expected ans w1 w2 w3 w4 : str)
  (H1 : blank w1) (H2 : blank w2) (H3 : blank w3) (H4 : blank w4) :
  check_exact (w1 ++ expected ++ w2) (w3 ++ ans ++ w4)
  = check_exact expected ans
  /\ (fst (check_exact expected ans) = true <-> strip ans = strip expected)
  /\ (strip ans <> strip expected ->
      check_exact expected ans
      = (false, u "Ожидалось: " ++ strip expected)).
Proof.
  unfold check_exact.
  rewrite (strip_padded w1 expected w2 H1 H2),
    (strip_padded w3 ans w4 H3 H4).
  split; [reflexivity|]. cbn [fst]. split; [apply str_eqb_eq|].
  intros Hne. destruct (str_eqb (strip ans) (strip expected)) eqn:E;
    [|reflexivity].
  apply str_eqb_eq in E. contradiction.
Qed.

Lemma check_exact_strips_witness :
  check_exact (u " " ++ u "[]" ++ u " ") (u "  " ++ u "[]" ++ u "	")
  = check_exact (u "[]") (u "[]").
Proof.
  apply (check_exact_strips (u "[]") (u "[]") (u " ") (u " ") (u "  ")
           (u "	")); repeat constructor.
Defined.

(** [check_mc] compares the stripped answer and the stripped correct
    choice in upper case: an answer passes exactly when the two are equal,
    and whitespace around either changes nothing. *)
Theorem check_mc_strips (R : runtime) (correct ans w1 w2 w3 w4 : str)
  (H1 : blank w1) (H2 : blank w2) (H3 : blank w3) (H4 : blank w4) :
  check_mc R (w1 ++ correct ++ w2) (w3 ++ ans ++ w4) = check_mc R correct ans
  /\ (fst (check_mc R correct ans) = true
      <-> str_upper R (strip ans) = str_upper R (strip correct)).
Proof.
  unfold check_mc.
  rewrite (strip_padded w1 correct w2 H1 H2),
    (strip_padded w3 ans w4 H3 H4).
  split; [reflexivity|]. cbn [fst]. apply str_eqb_eq.
Qed.

Lemma check_mc_strips_witness :
  check_mc CPython.cpy (u " " ++ u "b" ++ u " ") (u "  " ++ u "B" ++ u "	")
  = check_mc CPython.cpy (u "b") (u "B").
Proof.
  apply (check_mc_strips CPython.cpy (u "b") (u "B") (u " ") (u " ")
           (u "  ") (u "	")); repeat constructor.
Defined.

(** *** The segments of an answer *)

Lemma got_member (ans x : str) :
  In x (check_textio_got ans) ->
  x <> [] /\ ~ In semicolon x /\ strip x = x.
Proof.
  intros H. split; [now apply (got_kept ans)|].
  rewrite check_textio_got_segments in H.
  apply in_map_iff in H as (y & <- & Hy).
  apply filter_In in Hy as [Hy _].
  split; [|apply strip_idem].
  intros Hs. apply strip_incl in Hs.
  now apply (split_no_sep semicolon ans y).
Qed.

Lemma got_padded (w s : str) :
  blank w -> check_textio_got (w ++ s) = check_textio_got s.
Proof.
  intros Hw. unfold check_textio_got.
  replace (strip (w ++ s)) with (strip s); [reflexivity|].
  symmetry. rewrite <- (app_nil_r s) at 1.
  apply (strip_padded w s []); [exact Hw | constructor].
Qed.

Lemma join_cons (sep p q : str) (ps : list str) :
  join sep (p :: q :: ps) = p ++ sep ++ join sep (q :: ps).
Proof. reflexivity. Qed.

(** The segments of [sep.join(parts)], for [sep] the separator with
    blanks around it. *)
Lemma got_join (w1 w2 : str) (parts : list str) :
  blank w1 -> blank w2 ->
  Forall (fun p => ~ In semicolon p) parts ->
  check_textio_got (join (w1 ++ semicolon :: w2) parts)
  = map strip (filter kept parts).
Proof.
  intros H1 H2 Hparts.
  induction Hparts as [|p ps Hp Hps IH]; [reflexivity|].
  destruct ps as [|q ps].
  - simpl join. rewrite check_textio_got_segments.
    now rewrite (split_sep_free semicolon p Hp).
  - rewrite join_cons.
    rewrite <- (app_assoc w1), (app_assoc p w1). cbn [app].
    rewrite got_app, (got_padded w2 _ H2).
    change (p :: q :: ps) with ([p] ++ q :: ps).
    rewrite filter_app, map_app. f_equal; [|exact IH].
    rewrite check_textio_got_segments.
    assert (Hs : ~ In semicolon (p ++ w1)).
    { intros Hin. apply in_app_or in Hin as [Hin | Hin]; [tauto|].
      unfold blank in H1. rewrite Forall_forall in H1.
      specialize (H1 _ Hin). rewrite isspace_semicolon in H1.
      discriminate. }
    assert (E : strip (p ++ w1) = strip p).
    { apply (strip_padded [] p w1); [constructor | exact H1]. }
    rewrite (split_sep_free semicolon _ Hs). simpl. unfold kept.
    rewrite E. destruct (truthy (strip p)); simpl; now rewrite ?E.
Qed.

(** The sequence [check_textio] compares is the parts between the
    separators, stripped, without those that are empty once stripped: for
    parts without the separator, joined by it with any blanks around. *)
Theorem check_textio_got_of_join (w1 w2 : str) (parts : list str)
  (H1 : blank w1) (H2 : blank w2)
  (Hparts : Forall (fun p => ~ In semicolon p) parts) :
  check_textio_got (join (w1 ++ u ";" ++ w2) parts)
  = map strip (filter (fun p => truthy (strip p)) parts).
Proof. exact (got_join w1 w2 parts H1 H2 Hparts). Qed.

Lemma check_textio_got_of_join_witness :
  check_textio_got
    (join (u " " ++ u ";" ++ u "  ") [u " [1]"; u " "; u "[1] "])
  = map strip (filter (fun p => truthy (strip p))
                      [u " [1]"; u " "; u "[1] "]).
Proof.
  apply (check_textio_got_of_join (u " ") (u "  ")
           [u " [1]"; u " "; u "[1] "]).
  - repeat constructor.
  - repeat constructor.
  - repeat constructor; vm_compute; intuition discriminate.
Defined.

Lemma answerable_kept (exp : list str) :
  Forall answerable exp ->
  map strip (filter kept (map strip exp)) = map strip exp.
Proof.
  induction 1 as [|e exp [Hne _] _ IH]; [reflexivity|].
  simpl. unfold kept at 1. rewrite strip_idem.
  destruct (strip e) eqn:E; [contradiction|].
  simpl. rewrite <- E, strip_idem. now rewrite IH.
Qed.

Lemma shown_answer_passes (expected_lines : list str) :
  Forall answerable expected_lines ->
  check_textio expected_lines (join (u "; ") (map strip expected_lines))
  = (true, u "Верно!").
Proof.
  intros Hexp.
  unfold check_textio.
  assert (E : check_textio_got (join (u "; ") (map strip expected_lines))
              = map strip expected_lines).
  { change (u "; ") with ([] ++ semicolon :: u " ").
    rewrite got_join.
    - apply (answerable_kept expected_lines Hexp).
    - constructor.
    - repeat constructor.
    - apply Forall_map. revert Hexp. apply Forall_impl.
      intros a [_ H]. exact H. }
  rewrite E.
  now rewrite (proj2 (list_str_eqb_eq _ _) eq_refl).
Qed.

(** The text a failing [check_textio] shows after "Ожидалось: ", the
    stripped expected lines joined by "; ", is itself an answer that
    passes, when every expected line is not empty once stripped and has no
    semicolon. *)
Theorem check_textio_accepts_shown_answer (expected_lines : list str)
  (Hexp : Forall answerable expected_lines) :
  check_textio expected_lines (join (u "; ") (map strip expected_lines))
  = (true, u "Верно!").
Proof.
  exact (shown_answer_passes expected_lines Hexp).
Qed.

Lemma check_textio_accepts_shown_answer_witness :
  check_textio [u "[1]"; u " [1] "]
               (join (u "; ") (map strip [u "[1]"; u " [1] "]))
  = (true, u "Верно!").
Proof.
  apply (check_textio_accepts_shown_answer [u "[1]"; u " [1] "]).
  repeat constructor; vm_compute; intuition discriminate.
Defined.

(** Some answer passes [check_textio] exactly when every expected line
    is not empty once stripped and has no semicolon: with a blank expected
    line, or one with a semicolon in it, no answer can pass. *)
Theorem check_textio_satisfiable (expected_lines : list str) :
  (exists ans, fst (check_textio expected_lines ans) = true)
  <-> Forall answerable expected_lines.
Proof.
  split.
  - intros [ans H]. unfold check_textio in H. cbn [fst] in H.
    apply list_str_eqb_eq in H.
    apply Forall_forall. intros e He.
    assert (Hin : In (strip e) (check_textio_got ans)).
    { rewrite H. now apply in_map. }
    destruct (got_member ans (strip e) Hin) as (Hne & Hsep & _).
    now split.
  - intros H. exists (join (u "; ") (map strip expected_lines)).
    now rewrite (shown_answer_passes expected_lines H).
Qed.

(** ** The session *)

Lemma run_tasks_check_raise (c : Checker) (ans : str) (h h' : heap)
  (e : exc) :
  run_tasks_check c ans h = (Raise e, h') ->
  exists cls msg, e = BaseExc cls msg.
Proof.
  unfold run_tasks_check.
  destruct (c ans h) as [[v | [cls msg | cls msg]] h0]; intros [= <- _];
    eauto.
Qed.

(** What holds of every way the loop of one item ends, by induction on
    the lines left. *)
Lemma ask_end (lower : str -> str) (task : Task) (score i : nat)
  (P : attempt -> list event -> Prop) :
  (forall out, P (Crashed EOFError) out) ->
  (forall out,
      P Quit
        (out ++ [Printed (u "Выход из тренажёра. Спасибо за игру!");
                 Printed (u "Результат: " ++ str_of_nat score ++ u "/"
                            ++ str_of_nat (i - 1))])) ->
  (forall out, P Solved out) ->
  (forall out, P Skipped out) ->
  (forall out cls msg, P (Crashed (BaseExc cls msg)) out) ->
  forall n inputs out h,
    List.length inputs <= n ->
    match ask lower task score i inputs out h with
    | (a, _, out', _) => P a out'
    end.
Proof.
  intros Heof Hquit Hsolved Hskipped Hcrash.
  induction n as [|n IH]; intros inputs out h Hlen.
  - destruct inputs; [apply Heof | simpl in Hlen; lia].
  - destruct inputs as [|line rest]; [apply Heof|].
    simpl in Hlen. cbn [ask].
    destruct (str_eqb (lower (strip (rstrip_newline line))) (u "q"));
      [apply Hquit|].
    destruct (str_eqb (strip (rstrip_newline line)) (u "?"));
      [apply IH; lia|].
    destruct (run_tasks_check (checker task) (rstrip_newline line) h)
      as [[[ok msg] | e] h'] eqn:E.
    + destruct ok; [apply Hsolved|].
      destruct rest as [|line' rest']; [apply Heof|].
      destruct (negb (str_eqb (lower (strip line')) (u "y")));
        [apply Hskipped|].
      apply IH. simpl in Hlen. lia.
    + destruct (run_tasks_check_raise _ _ _ _ _ E) as (cls & msg & ->).
      apply Hcrash.
Qed.

Lemma run_pool_bounds (lower : str -> str) (indent : str -> str -> str)
  (pool : list Task) :
  forall i score total inputs out h,
    1 <= i ->
    match run_pool lower indent pool i score total inputs out h with
    | (Finished s, _, _, _) => score <= s /\ s <= score + List.length pool
    | (Left s d, _, out', _) =>
      score <= s /\ s + i <= score + d + 1
      /\ i <= d + 1 /\ d + 1 < i + List.length pool
      /\ exists o,
          out' = o ++ [Printed (u "Выход из тренажёра. Спасибо за игру!");
                       Printed (u "Результат: " ++ str_of_nat s ++ u "/"
                                  ++ str_of_nat d)]
    | (Aborted e, _, _, _) =>
      e = EOFError \/ exists cls msg, e = BaseExc cls msg
    end.
Proof.
  induction pool as [|task pool IH]; intros i score total inputs out h Hi;
    [simpl; lia|].
  cbn [run_pool].
  match goal with
  | |- context [ask lower task score i inputs ?out0 h] =>
    pose proof
      (ask_end lower task score i
         (fun a out' =>
            match a with
            | Quit =>
              exists pre,
                out' = pre ++ [Printed (u "Выход из тренажёра. Спасибо за игру!");
                             Printed (u "Результат: " ++ str_of_nat score
                                        ++ u "/" ++ str_of_nat (i - 1))]
            | Crashed e => e = EOFError \/ exists cls msg, e = BaseExc cls msg
            | _ => True
            end)
         (fun _ => or_introl eq_refl)
         (fun pre => ex_intro _ pre eq_refl)
         (fun _ => I) (fun _ => I)
         (fun _ cls msg => or_intror (ex_intro _ cls (ex_intro _ msg eq_refl)))
         (List.length inputs) inputs out0 h (le_n _)) as Hask;
    destruct (ask lower task score i inputs out0 h) as [[[a ins'] out'] h']
  end.
  destruct a as [| | | e].
  - specialize (IH (S i) (S score) total ins'
                   (out' ++ [Printed (repeat 45%N 60)]) h').
    destruct (run_pool lower indent pool (S i) (S score) total ins' _ h')
      as [[[[s | s d | e] ?] ?] ?]; simpl List.length.
    + lia.
    + destruct IH as (H1 & H2 & H3 & H4 & H5); [lia|].
      repeat split; try lia. exact H5.
    + apply IH. lia.
  - specialize (IH (S i) score total ins'
                   (out' ++ [Printed (repeat 45%N 60)]) h').
    destruct (run_pool lower indent pool (S i) score total ins' _ h')
      as [[[[s | s d | e] ?] ?] ?]; simpl List.length.
    + lia.
    + destruct IH as (H1 & H2 & H3 & H4 & H5); [lia|].
      repeat split; try lia. exact H5.
    + apply IH. lia.
  - simpl List.length. repeat split; try lia. exact Hask.
  - exact Hask.
Qed.

(** The score never runs ahead of the items. When the loop over the pool
    ends, the score is at most the number of items. When the user leaves
    with [q], the last line printed is "Результат: s/d" for the score [s]
    and the number [d] of items done, with [s <= d] and [d] less than the
    number of items. An exception leaves the session only as the end of
    the input or as an exception of a checker that is no [Exception]: an
    [Exception] of a checker never ends it. *)
Theorem run_pool_score_bounds (lower : str -> str)
  (indent : str -> str -> str) (pool : list Task) (inputs : list str)
  (out : list event) (h : heap) :
  match run_pool lower indent pool 1 0 (List.length pool) inputs out h with
  | (Finished score, _, _, _) => score <= List.length pool
  | (Left score done, _, out', _) =>
    score <= done /\ done < List.length pool
    /\ exists o,
        out' = o ++ [Printed (u "Выход из тренажёра. Спасибо за игру!");
                     Printed (u "Результат: " ++ str_of_nat score ++ u "/"
                                ++ str_of_nat done)]
  | (Aborted e, _, _, _) =>
    e = EOFError \/ exists cls msg, e = BaseExc cls msg
  end.
Proof.
  pose proof (run_pool_bounds lower indent pool 1 0 (List.length pool)
                inputs out h (le_n 1)) as G.
  destruct (run_pool lower indent pool 1 0 (List.length pool) inputs out h)
    as [[[[s | s d | e] ?] ?] ?].
  - lia.
  - destruct G as (H1 & H2 & H3 & H4 & H5). repeat split; try lia. exact H5.
  - exact G.
Qed.

(** *** Items that cannot be passed *)

Lemma eval_task_fails (R : runtime) (t : Task) (ans : str) (h : heap) :
  eval_task R t ->
  exists msg, run_tasks_check (checker t) ans h = (Ok (false, msg), h).
Proof.
  unfold run_tasks_check.
  intros [(env & expected & ->) | (env & predicate & s & ->)].
  - destruct (check_eval_equals_never_passes R env expected ans h)
      as [msg ->]. eauto.
  - destruct (check_eval_predicate_never_passes R env predicate s ans h)
      as [msg ->]. eauto.
Qed.

Lemma ask_eval_task (R : runtime) (lower : str -> str) (task : Task)
  (score i : nat) (Htask : eval_task R task) :
  forall n inputs out h,
    List.length inputs <= n ->
    match ask lower task score i inputs out h with
    | (a, _, _, h') =>
      h' = h /\ (a = Skipped \/ a = Quit \/ a = Crashed EOFError)
    end.
Proof.
  induction n as [|n IH]; intros inputs out h Hlen.
  - destruct inputs; [simpl; auto | simpl in Hlen; lia].
  - destruct inputs as [|line rest]; [simpl; auto|].
    simpl in Hlen. cbn [ask].
    destruct (str_eqb (lower (strip (rstrip_newline line))) (u "q"));
      [auto|].
    destruct (str_eqb (strip (rstrip_newline line)) (u "?"));
      [apply IH; lia|].
    destruct (eval_task_fails R task (rstrip_newline line) h Htask)
      as [msg ->].
    destruct rest as [|line' rest']; [auto|].
    destruct (negb (str_eqb (lower (strip line')) (u "y"))); [auto|].
    apply IH. simpl in Hlen. lia.
Qed.

(** A pool of items checked by [check_eval_equals] or
    [check_eval_predicate] gives no point: whatever is typed, the score
    stays 0, the heap is as it was, and the session ends at the end of the
    pool, by [q], or at the end of the input. *)
Theorem run_pool_eval_tasks_score_zero (R : runtime) (lower : str -> str)
  (indent : str -> str -> str) (pool : list Task) (inputs : list str)
  (out : list event) (h : heap) (Hpool : Forall (eval_task R) pool) :
  match run_pool lower indent pool 1 0 (List.length pool) inputs out h with
  | (Finished score, _, _, h') => score = 0 /\ h' = h
  | (Left score _, _, _, h') => score = 0 /\ h' = h
  | (Aborted e, _, _, h') => e = EOFError /\ h' = h
  end.
Proof.
  generalize (List.length pool) as total. generalize 1 as i.
  revert inputs out.
  induction Hpool as [|task pool Htask _ IH]; intros inputs out i total;
    [simpl; auto|].
  cbn [run_pool].
  match goal with
  | |- context [ask lower task 0 i inputs ?out0 h] =>
    pose proof (ask_eval_task R lower task 0 i Htask
                  (List.length inputs) inputs out0 h (le_n _)) as Hask;
    destruct (ask lower task 0 i inputs out0 h) as [[[a ins'] out'] h']
  end.
  destruct Hask as [-> [-> | [-> | ->]]]; [apply IH | now split | now split].
Qed.

Lemma run_pool_eval_tasks_score_zero_witness :
  match run_pool (fun s => s) (fun text prefix => prefix ++ text)
                 [task_none_is CPython.cpy] 1 0 1
                 [u "x is None"; u "y"; u "x == None"; u "n"] [] []
  with
  | (Finished score, _, _, h') => score = 0 /\ h' = []
  | (Left score _, _, _, h') => score = 0 /\ h' = []
  | (Aborted e, _, _, h') => e = EOFError /\ h' = []
  end.
Proof.
  apply (run_pool_eval_tasks_score_zero
           CPython.cpy (fun s => s) (fun text prefix => prefix ++ text)
           [task_none_is CPython.cpy]
           [u "x is None"; u "y"; u "x == None"; u "n"] [] []).
  constructor; [|constructor].
  left. exists [(u "x", VNone)], (VBool true). reflexivity.
Defined.

(** *** The hint and the empty pool *)

(** Lines that ask for the hint cost nothing: the loop of an item goes
    on after them as if they had not been typed, with the same heap, but
    for the prompt and the hint written once for each. *)
Theorem ask_hints_free (lower : str -> str) (task : Task) (score i : nat)
  (hints rest : list str) (out : list event) (h : heap)
  (Hhints : Forall (hint_line lower) hints) :
  ask lower task score i (hints ++ rest) out h
  = ask lower task score i rest
        (out ++ flat_map (fun _ => [Asked (u "Ваш ответ: ");
                                     Printed (u "Подсказка: " ++ hint task)])
                         hints) h.
Proof.
  revert out. induction Hhints as [|line hints [Hq Hl] _ IH]; intros out.
  - now rewrite app_nil_r.
  - cbn [app ask flat_map].
    assert (E1 : str_eqb (lower (strip (rstrip_newline line))) (u "q")
                 = false).
    { destruct (str_eqb _ (u "q")) eqn:E; [|reflexivity].
      apply str_eqb_eq in E. contradiction. }
    rewrite E1, Hq, str_eqb_refl, IH. now rewrite <- !app_assoc.
Qed.

Lemma ask_hints_free_witness :
  ask (fun s => s) task_bool_truth 0 1
      ([u " ? "; u "?"] ++ [u "False;True"]) [] []
  = ask (fun s => s) task_bool_truth 0 1 [u "False;True"]
      ([] ++ flat_map (fun _ => [Asked (u "Ваш ответ: ");
                                  Printed (u "Подсказка: "
                                             ++ hint task_bool_truth)])
                      [u " ? "; u "?"]) [].
Proof.
  apply (ask_hints_free (fun s => s) task_bool_truth 0 1 [u " ? "; u "?"]
           [u "False;True"] [] []).
  repeat constructor; vm_compute; discriminate.
Defined.

(** With no item in the pool [run_tasks] reads nothing, prints the score
    0/0 and the line of the full score: [score == total] is tested before
    [score / total], so nothing is divided by zero. *)
Theorem run_tasks_empty_pool (lower : str -> str)
  (shuffle : list Task -> list Task) (indent : str -> str -> str)
  (at_least_70_percent : nat -> nat -> bool) (tasks : list Task)
  (mode : str) (inputs : list str) (out : list event) (h : heap)
  (Hpool : pool_of shuffle tasks mode = []) :
  exists start,
    run_tasks lower shuffle indent at_least_70_percent tasks mode inputs
              out h
    = (Ok tt, inputs,
       out ++ [Printed start; Printed (u "Готово! Ваш счёт: 0/0");
               Printed (u "Идеально! 🔥")],
       h).
Proof.
  unfold run_tasks. rewrite Hpool. cbn [List.length run_pool].
  eexists. unfold closing. cbn [Nat.eqb].
  rewrite <- app_assoc. reflexivity.
Qed.

Lemma run_tasks_empty_pool_witness :
  exists start,
    run_tasks (fun s => s) (fun l => l) (fun t p => p ++ t)
              (fun _ _ => false) [] (u "easy") [u "q"] [] []
    = (Ok tt, [u "q"],
       [] ++ [Printed start; Printed (u "Готово! Ваш счёт: 0/0");
              Printed (u "Идеально! 🔥")],
       []).
Proof.
  apply (run_tasks_empty_pool (fun s => s) (fun l => l) (fun t p => p ++ t)
           (fun _ _ => false) [] (u "easy") [u "q"] [] []).
  reflexivity.
Defined.

(** *** Choosing the mode *)

Lemma select_mode_loop_junk (junk rest : list str) (out : list event) :
  Forall (fun line => mode_of_choice (strip line) = None) junk ->
  select_mode_loop (junk ++ rest) out
  = select_mode_loop rest
      (out ++ flat_map (fun _ => [Asked (u "> ");
                                   Printed (u "Введите 1, 2 или 3.")])
                       junk).
Proof.
  intros H. revert out. induction H as [|line junk Hl _ IH]; intros out.
  - now rewrite app_nil_r.
  - cbn [app select_mode_loop flat_map]. unfold mode_of_choice in Hl.
    destruct (str_eqb (strip line) (u "1")); [discriminate|].
    destruct (str_eqb (strip line) (u "2")); [discriminate|].
    destruct (str_eqb (strip line) (u "3")); [discriminate|].
    rewrite IH. now rewrite <- !app_assoc.
Qed.

(** [select_mode] returns the mode of the first line that is 1, 2 or 3
    once stripped, and leaves the lines after it unread; each line before
    it gets the reminder "Введите 1, 2 или 3."; with no such line the end
    of the input raises [EOFError]. *)
Theorem select_mode_first_choice (junk : list str) (line : str)
  (rest : list str) (out : list event) (mode : str)
  (Hjunk : Forall (fun l => mode_of_choice (strip l) = None) junk)
  (Hline : mode_of_choice (strip line) = Some mode) :
  select_mode (junk ++ line :: rest) out
  = (Ok mode, rest,
     out ++ [Printed WELCOME]
         ++ flat_map (fun _ => [Asked (u "> ");
                                 Printed (u "Введите 1, 2 или 3.")]) junk
         ++ [Asked (u "> ")])
  /\ select_mode junk out
     = (Raise EOFError, [],
        out ++ [Printed WELCOME]
            ++ flat_map (fun _ => [Asked (u "> ");
                                    Printed (u "Введите 1, 2 или 3.")]) junk
            ++ [Asked (u "> ")])
  /\ (mode = u "easy" \/ mode = u "hard" \/ mode = u "mixed").
Proof.
  unfold select_mode. split; [|split].
  - rewrite (select_mode_loop_junk junk (line :: rest) _ Hjunk).
    cbn [select_mode_loop]. unfold mode_of_choice in Hline.
    destruct (str_eqb (strip line) (u "1"));
      [injection Hline as <-; now rewrite <- !app_assoc|].
    destruct (str_eqb (strip line) (u "2"));
      [injection Hline as <-; now rewrite <- !app_assoc|].
    destruct (str_eqb (strip line) (u "3"));
      [injection Hline as <-; now rewrite <- !app_assoc|].
    discriminate.
  - rewrite <- (app_nil_r junk) at 1.
    rewrite (select_mode_loop_junk junk [] _ Hjunk).
    cbn [select_mode_loop]. now rewrite <- !app_assoc.
  - unfold mode_of_choice in Hline.
    destruct (str_eqb (strip line) (u "1")); [injection Hline; auto|].
    destruct (str_eqb (strip line) (u "2")); [injection Hline; auto|].
    destruct (str_eqb (strip line) (u "3")); [injection Hline; auto|].
    discriminate.
Qed.

Lemma select_mode_first_choice_witness :
  select_mode ([u "x"; u "12"] ++ u " 3 " :: [u "q"]) []
  = (Ok (u "mixed"), [u "q"],
     [] ++ [Printed WELCOME]
        ++ flat_map (fun _ => [Asked (u "> ");
                                Printed (u "Введите 1, 2 или 3.")])
                    [u "x"; u "12"]
        ++ [Asked (u "> ")]).
Proof.
  apply (select_mode_first_choice [u "x"; u "12"] (u " 3 ") [u "q"] []
           (u "mixed")).
  - repeat constructor.
  - reflexivity.
Defined.
